(** * Subcommand registry and dispatch of package [command]

    A shallow embedding of the instance-scoped variant of the package
    ([Path], [Cmd], [CmdFunc], [CmdCont], [Path.Add], [Path.Run] and the
    package-level wrappers over [globalPath]), with the properties of the
    dispatcher proved over it.

    Conventions of the embedding.
    - A Go [map[string]T] is a [gmap string T]; a slice is a [list].
    - A method that mutates its receiver returns the receiver's new state.
      The registry owns its entries, and with each entry the [*flag.FlagSet]
      that [Add] created for it: [Run] parses into that very flag set, so
      the flag set's state is part of the registry's state and is handed on
      from one call to the next.
    - The state that the commands of the program act on (the variables their
      closures capture, the fields of their receivers) is a type [W] of the
      caller's choice, threaded through every call into command code.
    - Command code can panic; a panic is the [None] of an [option] result.
    - [for k := range m] visits the keys of a map in an order the language
      leaves open; the order a call uses is an argument, a [RangeOrder]. *)

From Stdlib Require Import Ascii String.
From stdpp Require Import base option list strings gmap fin_maps sorting.

Open Scope string_scope.

(** ** Errors *)

(** What [FlagSet.failf] formats: the failure and the operands of its
    format string. *)
Inductive flagFailure : Type :=
  | BadFlagSyntax (s : string)                  (* "bad flag syntax: %s" *)
  | FlagNotDefined (name : string)              (* "flag provided but not defined: -%s" *)
  | InvalidBooleanValue (value name : string)   (* "invalid boolean value %q for -%s: %v" *)
  | FlagNeedsArgument (name : string).          (* "flag needs an argument: -%s" *)

(** The values of Go's [error] interface that occur.  [ErrCmdUsage] and
    [ErrNoSuchCmd] are the package's two variables; [ErrRequiredFlags keys]
    is [fmt.Errorf("Required flags not set: %q\n", keys)], whose text lists
    the elements of [keys] in the order of the slice. *)
Inductive error : Type :=
  | ErrCmdUsage
  | ErrNoSuchCmd
  | ErrRequiredFlags (keys : list string)
  | ErrHelp                                     (* flag.ErrHelp *)
  | ErrFlag (e : flagFailure)
  | ErrOther (msg : string).                    (* errors.New(msg) of a command *)

Global Instance flagFailure_eq_dec : EqDecision flagFailure.
Proof. solve_decision. Defined.

Global Instance error_eq_dec : EqDecision error.
Proof. solve_decision. Defined.

(** ** The flag package, as the dispatcher uses it *)

(** The four operations of [flag] that [Add] and [Run] call.  [Visit f] is
    the list of the names of the flags on which [f.Visit(fn)] calls [fn], in
    the order of the calls. *)
Class FlagPkg : Type := {
  FlagSet : Type;
  NewFlagSet : string → FlagSet;        (* flag.NewFlagSet(name, flag.ContinueOnError) *)
  Parse : FlagSet → list string → FlagSet * option error;
  Visit : FlagSet → list string;
  Args : FlagSet → list string
}.

(** ** A model of Go's [flag.FlagSet]

    The standard library's flag set, of which the package is a client, for
    boolean and string flags and the error handling [ContinueOnError].
    What [failf] and [usage()] print is not part of the model. *)
Module flag.

Inductive Value : Type :=
  | boolValue (b : bool)
  | stringValue (s : string).

Record Flag : Type := mkFlag {
  Name : string;
  Usage : string;
  Val : Value;
  DefValue : string
}.

(** [actual] and [formal] map a name to one and the same [*Flag]; the model
    keeps the flags in [formal] and of [actual] its set of names. *)
Record t : Type := mkFlagSet {
  name : string;
  parsed : bool;
  actual : gset string;
  formal : gmap string Flag;
  args : list string
}.

Definition set_args (a : list string) (f : t) : t :=
  mkFlagSet (name f) (parsed f) (actual f) (formal f) a.

Definition NewFlagSet (n : string) : t :=
  mkFlagSet n false ∅ ∅ [].

(** [f.Var(value, name, usage)]: panics when the name is taken. *)
Definition Var (value : Value) (defValue : string) (n usage : string) (f : t) : option t :=
  match formal f !! n with
  | Some _ => None
  | None =>
      Some (mkFlagSet (name f) (parsed f) (actual f)
              (<[n := mkFlag n usage value defValue]> (formal f)) (args f))
  end.

Definition Bool (n : string) (value : bool) (usage : string) (f : t) : option t :=
  Var (boolValue value) (if value then "true" else "false") n usage f.

Definition String (n : string) (value : string) (usage : string) (f : t) : option t :=
  Var (stringValue value) value n usage f.

(** strconv.ParseBool *)
Definition ParseBool (str : string) : option bool :=
  if decide (str ∈ ["1"; "t"; "T"; "TRUE"; "true"; "True"]) then Some true
  else if decide (str ∈ ["0"; "f"; "F"; "FALSE"; "false"; "False"]) then Some false
  else None.

Definition byte_is (s : string) (i : nat) (c : Ascii.ascii) : bool :=
  bool_decide (String.get i s = Some c).

(** [s[n:]] *)
Definition from (n : nat) (s : string) : string :=
  String.substring n (String.length s - n) s.

(** The first [=] of [s]: what is before it and what is after it. *)
Fixpoint cut_equals (s : string) : option (string * string) :=
  match s with
  | EmptyString => None
  | String.String c r =>
      if decide (c = "="%char) then Some (EmptyString, r)
      else '(a, b) ← cut_equals r; Some (String.String c a, b)
  end.

(** The loop of [parseOne] that looks for a value: [=] cannot be first. *)
Definition split_value (n : string) : string * string * bool :=
  match n with
  | EmptyString => (n, "", false)
  | String.String c r =>
      match cut_equals r with
      | Some (a, v) => (String.String c a, v, true)
      | None => (n, "", false)
      end
  end.

(** [actual[name] = flag], after [flag.Value.Set] has changed the flag
    that [formal] holds too. *)
Definition record (n : string) (fl : Flag) (v : Value) (f : t) : t :=
  mkFlagSet (name f) (parsed f) ({[n]} ∪ actual f)
    (<[n := mkFlag (Name fl) (Usage fl) v (DefValue fl)]> (formal f)) (args f).

Definition parseOne (f : t) : bool * option error * t :=
  match args f with
  | [] => (false, None, f)
  | s :: rest =>
      if (String.length s <? 2)%nat || negb (byte_is s 0 "-"%char) then (false, None, f)
      else
        let numMinuses := if byte_is s 1 "-"%char then 2 else 1 in
        if byte_is s 1 "-"%char && (String.length s =? 2)%nat then
          (false, None, set_args rest f)        (* "--" terminates the flags *)
        else
          let n := from numMinuses s in
          if (String.length n =? 0)%nat || byte_is n 0 "-"%char || byte_is n 0 "="%char then
            (false, Some (ErrFlag (BadFlagSyntax s)), f)
          else
            let f := set_args rest f in
            let '(n, value, hasValue) := split_value n in
            match formal f !! n with
            | None =>
                if decide (n = "help" ∨ n = "h") then (false, Some ErrHelp, f)
                else (false, Some (ErrFlag (FlagNotDefined n)), f)
            | Some fl =>
                match Val fl with
                | boolValue _ =>               (* needs no argument *)
                    let value := if hasValue then value else "true" in
                    match ParseBool value with
                    | None => (false, Some (ErrFlag (InvalidBooleanValue value n)), f)
                    | Some b => (true, None, record n fl (boolValue b) f)
                    end
                | stringValue _ =>             (* Set of a string cannot fail *)
                    if hasValue then (true, None, record n fl (stringValue value) f)
                    else
                      match args f with
                      | value :: rest =>       (* value is the next arg *)
                          (true, None, record n fl (stringValue value) (set_args rest f))
                      | [] => (false, Some (ErrFlag (FlagNeedsArgument n)), f)
                      end
                end
            end
  end.

(** The loop of [Parse]; every round that goes on has consumed an
    argument, so [S (length arguments)] rounds are enough. *)
Fixpoint parse_loop (rounds : nat) (f : t) : t * option error :=
  match rounds with
  | 0 => (f, None)
  | S rounds =>
      let '(seen, err, f) := parseOne f in
      if seen then parse_loop rounds f else (f, err)
  end.

Definition Parse (f : t) (arguments : list string) : t * option error :=
  parse_loop (S (length arguments))
    (mkFlagSet (name f) true (actual f) (formal f) arguments).

(** [Visit] calls its function on the flags that have been set, in
    lexicographical order of their names. *)
Definition Visit (f : t) : list string :=
  merge_sort String.le (elements (actual f)).

Definition Args (f : t) : list string := args f.

End flag.

Global Instance goflag : FlagPkg := {|
  FlagSet := flag.t;
  NewFlagSet := flag.NewFlagSet;
  Parse := flag.Parse;
  Visit := flag.Visit;
  Args := flag.Args
|}.

(** ** The order of [range] over a map *)

(** One order in which [for k := range m] can visit the keys of [m]: any
    arrangement of the keys, each key once. *)
Record RangeOrder : Type := mkRangeOrder {
  range_keys : gmap string bool → list string;
  range_keys_perm : ∀ m, range_keys m ≡ₚ (map_to_list m).*1
}.

Program Definition range_forward : RangeOrder :=
  mkRangeOrder (λ m, (map_to_list m).*1) _.
Next Obligation. done. Qed.

Program Definition range_backward : RangeOrder :=
  mkRangeOrder (λ m, reverse (map_to_list m).*1) _.
Next Obligation. intros m. apply reverse_Permutation. Qed.

(** ** Commands, entries and the registry *)

Section command.
Context (W : Type) `{!FlagPkg}.

(** The interface [Cmd]: [Flags(fs *flag.FlagSet)] registers the flags of the
    subcommand on the flag set it is given, [Run(args ...string) error]
    takes the arguments.  Both act on the program's state; [None] is a
    panic. *)
Record Cmd : Type := mkCmd {
  Cmd_Flags : FlagSet → W → option (FlagSet * W);
  Cmd_Run : list string → W → option (option error * W)
}.

(** [type CmdFunc func(args []string) error] *)
Definition CmdFunc : Type := list string → W → option (option error * W).

Definition CmdFunc_Flags (s : CmdFunc) (fs : FlagSet) (w : W) : option (FlagSet * W) :=
  Some (fs, w).

Definition CmdFunc_Run (s : CmdFunc) (args : list string) (w : W) : option (option error * W) :=
  s args w.

(** A [CmdFunc] used as a [Cmd]. *)
Definition CmdFunc_Cmd (s : CmdFunc) : Cmd :=
  mkCmd (CmdFunc_Flags s) (CmdFunc_Run s).

Record CmdCont : Type := mkCmdCont {
  cc_Cmd : Cmd;
  cc_Name : string;
  cc_Desc : string;
  cc_RequiredFlags : list string;
  cc_Flags : FlagSet
}.

(** The entry after its flag set has changed. *)
Definition with_Flags (fs : FlagSet) (c : CmdCont) : CmdCont :=
  mkCmdCont (cc_Cmd c) (cc_Name c) (cc_Desc c) (cc_RequiredFlags c) fs.

Record Path : Type := mkPath {
  entries : gmap string CmdCont
}.

Definition NewPath : Path := mkPath ∅.

(** [Path.Add]: the entry made, the registry and the program's state
    after the call. *)
Definition Path_Add (name description : string) (command : Cmd)
    (requiredFlags : list string) (p : Path) (w : W) : option (CmdCont * Path * W) :=
  (* register subcommand flags *)
  '(fs, w) ← Cmd_Flags command (NewFlagSet name) w;
  let c := mkCmdCont command name description requiredFlags fs in
  Some (c, mkPath (<[name := c]> (entries p)), w).

(** What a call of [Path.Run] leaves: the two values it returns, the
    registry and the program's state after it, and the arguments with
    which it called the [Run] of the entry, if it called it. *)
Record RunResult : Type := mkRunResult {
  res_cont : option CmdCont;
  res_err : option error;
  res_path : Path;
  res_world : W;
  res_ran : option (list string)
}.

(** The map [missingFlags] after the two loops of [Path.Run]. *)
Definition missingFlags (requiredFlags visited : list string) : gmap string bool :=
  foldl (λ m name, delete name m)
    (foldl (λ m flagName, <[flagName := true]> m) ∅ requiredFlags)
    visited.

(** [if len(args) > 1 { err := cont.Flags.Parse(args[1:]) ... }]: the
    flag set of the entry after these lines, and the error. *)
Definition parse_rest (cont : CmdCont) (args : list string) : FlagSet * option error :=
  if (1 <? length args)%nat then Parse (cc_Flags cont) (drop 1 args)
  else (cc_Flags cont, None).

(** [Path.Run].  [args[0]] on an empty slice would panic; the first test
    excludes it. *)
Definition Path_Run (ord : RangeOrder) (p : Path) (args : list string) (w : W)
    : option RunResult :=
  if (size (entries p) <? 1)%nat || (length args <? 1)%nat then
    Some (mkRunResult None (Some ErrCmdUsage) p w None)
  else
    (* first argument is the subcommand *)
    name ← args !! 0%nat;
    match entries p !! name with
    | Some cont =>
        let '(fs, err) := parse_rest cont args in
        let cont := with_Flags fs cont in
        let p := mkPath (<[name := cont]> (entries p)) in
        match err with
        | Some err => Some (mkRunResult (Some cont) (Some err) p w None)
        | None =>
            (* check for required / mandatory flags. *)
            let missing := missingFlags (cc_RequiredFlags cont) (Visit (cc_Flags cont)) in
            if (0 <? size missing)%nat then
              let keys := range_keys ord missing in
              Some (mkRunResult (Some cont) (Some (ErrRequiredFlags keys)) p w None)
            else
              let a := Args (cc_Flags cont) in
              '(e, w) ← Cmd_Run (cc_Cmd cont) a w;
              Some (mkRunResult (Some cont) e p w (Some a))
        end
    | None => Some (mkRunResult None (Some ErrNoSuchCmd) p w None)
    end.

(** The package-level [Add] and [Run]: the methods, on [globalPath]. *)
Definition Add (name description : string) (command : Cmd)
    (requiredFlags : list string) (globalPath : Path) (w : W) : option (CmdCont * Path * W) :=
  Path_Add name description command requiredFlags globalPath w.

Definition Run (ord : RangeOrder) (globalPath : Path) (args : list string) (w : W)
    : option RunResult :=
  Path_Run ord globalPath args w.

(** What registration fixes of an entry, the flag set apart. *)
Definition binding (c : CmdCont) : string * string * list string * Cmd :=
  (cc_Name c, cc_Desc c, cc_RequiredFlags c, cc_Cmd c).

(** The name-to-entry mapping of a registry. *)
Definition bindings (p : Path) : gmap string (string * string * list string * Cmd) :=
  binding <$> entries p.

(** Two errors that differ at most in the order of the names that an
    [ErrRequiredFlags] lists. *)
Definition error_equiv (e e' : option error) : Prop :=
  match e, e' with
  | Some (ErrRequiredFlags keys), Some (ErrRequiredFlags keys') => keys ≡ₚ keys'
  | _, _ => e = e'
  end.

Definition result_equiv (r r' : option RunResult) : Prop :=
  match r, r' with
  | Some r, Some r' =>
      res_cont r = res_cont r' ∧ error_equiv (res_err r) (res_err r') ∧
      res_path r = res_path r' ∧ res_world r = res_world r' ∧
      res_ran r = res_ran r'
  | None, None => True
  | _, _ => False
  end.

(** The two values that [Path.Run] returns, the entry by what registration
    fixed of it. *)
Definition outcome (r : RunResult)
    : option (string * string * list string * Cmd) * option error :=
  (binding <$> res_cont r, res_err r).

End command.

Arguments mkCmd {W _} _ _.
Arguments Cmd_Flags {W _} _ _ _.
Arguments Cmd_Run {W _} _ _ _.
Arguments CmdFunc_Flags {W _} _ _ _.
Arguments CmdFunc_Run {W} _ _ _.
Arguments CmdFunc_Cmd {W _} _.
Arguments mkCmdCont {W _} _ _ _ _ _.
Arguments cc_Cmd {W _} _.
Arguments cc_Name {W _} _.
Arguments cc_Desc {W _} _.
Arguments cc_RequiredFlags {W _} _.
Arguments cc_Flags {W _} _.
Arguments with_Flags {W _} _ _.
Arguments mkPath {W _} _.
Arguments entries {W _} _.
Arguments NewPath {W _}.
Arguments Path_Add {W _} _ _ _ _ _ _.
Arguments mkRunResult {W _} _ _ _ _ _.
Arguments res_cont {W _} _.
Arguments res_err {W _} _.
Arguments res_path {W _} _.
Arguments res_world {W _} _.
Arguments res_ran {W _} _.
Arguments parse_rest {W _} _ _.
Arguments Path_Run {W _} _ _ _ _.
Arguments Add {W _} _ _ _ _ _ _.
Arguments Run {W _} _ _ _ _.
Arguments binding {W _} _.
Arguments bindings {W _} _.
Arguments error_equiv _ _ : assert.
Arguments result_equiv {W _} _ _.
Arguments outcome {W _} _.

(** ** The commands of the documentation and of the test *)

(** The program's state in these examples is one string, the variable [val]
    of [TestCommandFunc]. *)
Module examples.

(** func(args []string) error { val = args[0]; return nil } *)
Definition helloFunc : CmdFunc string :=
  λ args _, val ← args !! 0%nat; Some (None, val).

(** [VersionCommand] of the README, as a [Cmd]: one boolean flag, [v]. *)
Definition VersionCommand : Cmd string :=
  mkCmd (λ fs w, fs ← flag.Bool "v" false "provides verbose output" fs; Some (fs, w))
        (λ args w, Some (None, w)).

(** A command with two string flags. *)
Definition shipCommand : Cmd string :=
  mkCmd (λ fs w, fs ← flag.String "env" "" "environment" fs;
                 fs ← flag.String "zone" "" "zone" fs; Some (fs, w))
        (λ args w, Some (None, w)).

(** The three registrations of the examples, on a new registry, [val]
    being empty. *)
Definition registration : option (Path string * string) :=
  '(_, p, w) ← Add "hello" "simple testing function" (CmdFunc_Cmd helloFunc) [] NewPath "";
  '(_, p, w) ← Add "version" "prints the version" VersionCommand ["v"] p w;
  '(_, p, w) ← Add "ship" "ships" shipCommand ["env"; "zone"] p w;
  Some (p, w).

(** The flag set of an entry once [Add] has let the command register its
    flags on it. *)
Definition flags_of (name : string) (command : Cmd string) : @FlagSet goflag :=
  default (flag.NewFlagSet name) (fst <$> Cmd_Flags command (flag.NewFlagSet name) "").

Definition helloEntry : CmdCont string :=
  mkCmdCont (CmdFunc_Cmd helloFunc) "hello" "simple testing function" []
    (flags_of "hello" (CmdFunc_Cmd helloFunc)).

Definition versionEntry : CmdCont string :=
  mkCmdCont VersionCommand "version" "prints the version" ["v"]
    (flags_of "version" VersionCommand).

Definition shipEntry : CmdCont string :=
  mkCmdCont shipCommand "ship" "ships" ["env"; "zone"] (flags_of "ship" shipCommand).

(** The registry that [registration] builds. *)
Definition registry : Path string :=
  mkPath (<["ship" := shipEntry]> (<["version" := versionEntry]>
         (<["hello" := helloEntry]> ∅))).

(** The flag set of an entry after [Path.Run] has parsed [args] into it. *)
Definition parsed (cont : CmdCont string) (args : list string) : @FlagSet goflag :=
  (parse_rest cont args).1.

(** What [Run("version", "-v", "now")] leaves on [registry]. *)
(** ["hello"] registered a second time, for [VersionCommand]. *)
Definition helloAgain : Path string :=
  mkPath (<["hello" := mkCmdCont VersionCommand "hello" "prints the version" ["v"]
                         (flags_of "hello" VersionCommand)]>
            (entries (mkPath (<["hello" := helloEntry]> ∅)))).

Definition versionResult : RunResult string :=
  let cont := with_Flags (parsed versionEntry ["version"; "-v"; "now"]) versionEntry in
  mkRunResult (Some cont) None (mkPath (<["version" := cont]> (entries registry)))
    "" (Some ["now"]).

(** The registry after a call of [Path.Run] with [args]. *)
Definition after (args : list string) (p : Path string) : Path string :=
  default p (res_path <$> Path_Run range_forward p args "").

End examples.

(** ** Listing the commands *)

(** One order in which [for k, v := range m] can visit the entries of a
    map with values in [A]. *)
Record MapOrder (A : Type) : Type := mkMapOrder {
  range_map : gmap string A → list (string * A);
  range_map_perm : ∀ m, range_map m ≡ₚ map_to_list m
}.

Arguments mkMapOrder {A} _ _.
Arguments range_map {A} _ _.
Arguments range_map_perm {A} _ _.

Program Definition map_forward {A : Type} : MapOrder A :=
  mkMapOrder (λ m, map_to_list m) _.
Next Obligation. done. Qed.

Program Definition map_backward {A : Type} : MapOrder A :=
  mkMapOrder (λ m, reverse (map_to_list m)) _.
Next Obligation. intros A m. apply reverse_Permutation. Qed.

(** A call that writes to the standard output: [fmt.Println(s)], or
    [fmt.Printf(format, a...)] with the format as the source has it. *)
Inductive stdout : Type :=
  | Println (s : string)
  | Printf (format : string) (a : list string).

Section listing.
Context (W : Type) `{!FlagPkg}.

(** [Path.PrintAvailableCommands]: the calls it makes, in their order. *)
Definition Path_PrintAvailableCommands (ord : MapOrder (CmdCont W)) (p : Path W)
    : list stdout :=
  Println "Available commands:" ::
  ((λ kc : string * CmdCont W, Printf "\t%s\t%s\n" [cc_Name kc.2; cc_Desc kc.2])
     <$> range_map ord (entries p)).

(** The package-level [PrintAvailableCommands]. *)
Definition PrintAvailableCommands (ord : MapOrder (CmdCont W)) (globalPath : Path W)
    : list stdout :=
  Path_PrintAvailableCommands ord globalPath.

(** Every entry of the registry carries, as its [Name], the name it is
    registered under. *)
Definition names_ok (p : Path W) : Prop :=
  ∀ name c, entries p !! name = Some c → cc_Name c = name.

(** The registries that a program builds: from [NewPath], by [Add] and
    [Run]. *)
Inductive built : Path W → Prop :=
  | built_NewPath : built NewPath
  | built_Add name description command requiredFlags p w c p' w' :
      built p →
      Path_Add name description command requiredFlags p w = Some (c, p', w') →
      built p'
  | built_Run ord p args w r :
      built p →
      Path_Run ord p args w = Some r →
      built (res_path r).

(** The six ways through [Path.Run], each with what the call leaves. *)
Inductive Run_spec (ord : RangeOrder) (p : Path W) (args : list string) (w : W)
    : option (RunResult W) → Prop :=
  | Run_usage :
      size (entries p) = 0 ∨ args = [] →
      Run_spec ord p args w (Some (mkRunResult None (Some ErrCmdUsage) p w None))
  | Run_unknown name rest :
      args = name :: rest →
      size (entries p) ≠ 0 →
      entries p !! name = None →
      Run_spec ord p args w (Some (mkRunResult None (Some ErrNoSuchCmd) p w None))
  | Run_parse_error name rest cont fs err :
      args = name :: rest →
      entries p !! name = Some cont →
      parse_rest cont args = (fs, Some err) →
      Run_spec ord p args w
        (Some (mkRunResult (Some (with_Flags fs cont)) (Some err)
                 (mkPath (<[name := with_Flags fs cont]> (entries p))) w None))
  | Run_missing name rest cont fs :
      args = name :: rest →
      entries p !! name = Some cont →
      parse_rest cont args = (fs, None) →
      (∃ k, k ∈ cc_RequiredFlags cont ∧ k ∉ Visit fs) →
      Run_spec ord p args w
        (Some (mkRunResult (Some (with_Flags fs cont))
                 (Some (ErrRequiredFlags
                          (range_keys ord (missingFlags (cc_RequiredFlags cont) (Visit fs)))))
                 (mkPath (<[name := with_Flags fs cont]> (entries p))) w None))
  | Run_ran name rest cont fs e w' :
      args = name :: rest →
      entries p !! name = Some cont →
      parse_rest cont args = (fs, None) →
      (∀ k, k ∈ cc_RequiredFlags cont → k ∈ Visit fs) →
      Cmd_Run (cc_Cmd cont) (Args fs) w = Some (e, w') →
      Run_spec ord p args w
        (Some (mkRunResult (Some (with_Flags fs cont)) e
                 (mkPath (<[name := with_Flags fs cont]> (entries p))) w'
                 (Some (Args fs))))
  | Run_panic name rest cont fs :
      args = name :: rest →
      entries p !! name = Some cont →
      parse_rest cont args = (fs, None) →
      (∀ k, k ∈ cc_RequiredFlags cont → k ∈ Visit fs) →
      Cmd_Run (cc_Cmd cont) (Args fs) w = None →
      Run_spec ord p args w None.

End listing.

Arguments Run_spec {W _} _ _ _ _ _.
Arguments Path_PrintAvailableCommands {W _} _ _.
Arguments PrintAvailableCommands {W _} _ _.
Arguments names_ok {W _} _.
Arguments built {W _} _.

(** ** The older variant of the package: one registry for the process

    [command.go]: the registry [cmds], the matched command and its
    arguments are variables of the package; [Parse] reads [os.Args], writes
    to the standard error stream and ends the process with [os.Exit];
    [Run] runs what [Parse] has matched. *)

(** What this variant uses of the flag package besides [FlagPkg].
    [VisitAll f] lists the names of the flags on which [f.VisitAll(fn)]
    calls [fn].  [FlagSet_Bool name value usage f] is [f.Bool(name, value,
    usage)], which panics ([None]) if the flag set has the flag already, and
    [FlagSet_BoolVar name f] is the value of the variable that this call
    returned a pointer to. *)
Class FlagPkgGlobal `{FlagPkg} : Type := {
  VisitAll : FlagSet → list string;
  FlagSet_Bool : string → bool → string → FlagSet → option FlagSet;
  FlagSet_BoolVar : string → FlagSet → bool
}.

Global Instance goflag_global : FlagPkgGlobal := {|
  VisitAll f := merge_sort String.le (elements (dom (flag.formal f)));
  FlagSet_Bool := flag.Bool;
  FlagSet_BoolVar n f :=
    match flag.Val <$> flag.formal f !! n with
    | Some (flag.boolValue b) => b
    | _ => false
    end
|}.

(** strings.Join *)
Definition strings_Join (elems : list string) (sep : string) : string :=
  String.concat sep elems.

Module legacy.
Section legacy.
Context (W : Type) `{FlagPkgGlobal}.

(** The interface [Cmd] of this variant: [Flags] returns the flag set on
    which it has registered the flags. *)
Record Cmd : Type := mkCmd {
  Cmd_Flags : FlagSet → W → option (FlagSet * W);
  Cmd_Run : list string → W → option (option error * W)
}.

Record cmdCont : Type := mkCmdCont {
  name : string;
  desc : string;
  command : Cmd;
  requiredFlags : list string
}.

(** A call that writes to the standard error stream:
    [fmt.Fprintf(os.Stderr, format, a...)], with the format as the source
    has it, or [PrintDefaults] of a flag set. *)
Inductive output : Type :=
  | Fprintf (format : string) (a : list string)
  | PrintDefaults (fs : FlagSet).

(** [os.Args]: the name of the program and the arguments after it. *)
Record Process : Type := mkProcess {
  program : string;
  arguments : list string
}.

(** The variables of the package and what else the functions act on:
    [flag.CommandLine], whether [flag.Usage] is the [Usage] of this package,
    what has been written to the standard error stream, and the state of
    the program's commands.  [flagHelp] is a pointer to the variable of the
    flag [h]: [None] is nil, [Some b] the value of that variable. *)
Record Globals : Type := mkGlobals {
  CommandLine : FlagSet;
  flag_Usage : bool;
  cmds : gmap string cmdCont;
  matchingCmd : option cmdCont;
  args : list string;
  flagHelp : option bool;
  stderr : list output;
  world : W
}.

Definition set_CommandLine (cl : FlagSet) (g : Globals) : Globals :=
  mkGlobals cl (flag_Usage g) (cmds g) (matchingCmd g) (args g) (flagHelp g)
    (stderr g) (world g).

Definition set_flag_Usage (g : Globals) : Globals :=
  mkGlobals (CommandLine g) true (cmds g) (matchingCmd g) (args g) (flagHelp g)
    (stderr g) (world g).

Definition set_cmds (m : gmap string cmdCont) (g : Globals) : Globals :=
  mkGlobals (CommandLine g) (flag_Usage g) m (matchingCmd g) (args g) (flagHelp g)
    (stderr g) (world g).

Definition set_matched (cont : cmdCont) (a : list string) (h : bool) (g : Globals)
    : Globals :=
  mkGlobals (CommandLine g) (flag_Usage g) (cmds g) (Some cont) a (Some h)
    (stderr g) (world g).

Definition write (o : list output) (g : Globals) : Globals :=
  mkGlobals (CommandLine g) (flag_Usage g) (cmds g) (matchingCmd g) (args g)
    (flagHelp g) (stderr g ++ o) (world g).

Definition set_world (w : W) (g : Globals) : Globals :=
  mkGlobals (CommandLine g) (flag_Usage g) (cmds g) (matchingCmd g) (args g)
    (flagHelp g) (stderr g) w.

(** How a call ends: it returns, the package ends the process with
    [os.Exit(code)], a [Parse] of the flag package ends it on the error
    [err] (flag sets made with [ExitOnError]; what the flag package writes
    before it does is not recorded), or the call panics. *)
Inductive result (A : Type) : Type :=
  | Return (a : A) (g : Globals)
  | Exit (code : Z) (g : Globals)
  | FlagExit (err : error)
  | Panic.

Arguments Return {A} _ _.
Arguments Exit {A} _ _.
Arguments FlagExit {A} _.
Arguments Panic {A}.

Definition M (A : Type) : Type := Globals → result A.

Definition ret {A : Type} (a : A) : M A := λ g, Return a g.

Definition bind {A B : Type} (m : M A) (k : A → M B) : M B :=
  λ g, match m g with
       | Return a g => k a g
       | Exit code g => Exit code g
       | FlagExit err => FlagExit err
       | Panic => Panic
       end.

Local Instance M_ret : MRet M := @ret.
Local Instance M_bind : MBind M := λ A B k m, bind m k.

Definition get : M Globals := λ g, Return g g.

Definition modify (f : Globals → Globals) : M unit := λ g, Return tt (f g).

Definition eprintf (format : string) (a : list string) : M unit :=
  modify (write [Fprintf format a]).

Definition printDefaults (fs : FlagSet) : M unit :=
  modify (write [PrintDefaults fs]).

Definition os_Exit {A : Type} (code : Z) : M A := λ g, Exit code g.

Definition panic {A : Type} : M A := λ _, Panic.

(** A value that may be nil, dereferenced. *)
Definition deref {A : Type} (x : option A) : M A :=
  match x with Some a => ret a | None => panic end.

(** A call into the code of a command. *)
Definition call {A : Type} (f : W → option (A * W)) : M A :=
  λ g, match f (world g) with
       | Some (a, w) => Return a (set_world w g)
       | None => Panic
       end.

(** A [Parse] of a flag set made with [flag.ExitOnError]. *)
Definition parse_or_exit (fs : FlagSet) (arguments : list string) : M FlagSet :=
  λ g, match Parse fs arguments with
       | (fs, None) => Return fs g
       | (_, Some err) => FlagExit err
       end.

Fixpoint for_each {A : Type} (l : list A) (body : A → M unit) : M unit :=
  match l with
  | [] => ret tt
  | x :: l => body x;; for_each l body
  end.

(** [On]: registers a [Cmd] for the name. *)
Definition On (name description : string) (command : Cmd)
    (requiredFlags : list string) : M unit :=
  modify (λ g, set_cmds (<[name := mkCmdCont name description command requiredFlags]>
                           (cmds g)) g).

(** [numOfGlobalFlags]: [count++] for every flag of [flag.CommandLine]. *)
Definition numOfGlobalFlags (g : Globals) : nat :=
  foldl (λ count _, S count) 0%nat (VisitAll (CommandLine g)).

(** [Usage]. *)
Definition Usage (os : Process) (ord : MapOrder cmdCont) : M unit :=
  g ← get;
  if (size (cmds g) =? 0)%nat then
    (* no subcommands *)
    eprintf "Usage of %s:\n" [program os];;
    printDefaults (CommandLine g)
  else
    eprintf "Usage: %s <command>\n\n" [program os];;
    eprintf "where <command> is one of:\n" [];;
    for_each (range_map ord (cmds g))
      (λ nc, eprintf "  %-15s %s\n" [nc.1; desc nc.2]);;
    (if (0 <? numOfGlobalFlags g)%nat then
       eprintf "\navailable flags:\n" [];;
       printDefaults (CommandLine g)
     else ret tt);;
    eprintf "\n%s <command> -h for subcommand help\n" [program os].

(** [subcommandUsage]: the flag set it prints is a new one, on which the
    matching command registers its flags once more. *)
Definition subcommandUsage (os : Process) (cont : cmdCont) : M unit :=
  eprintf "Usage of %s %s:\n" [program os; name cont];;
  (* should only output sub command flags, ignore h flag. *)
  g ← get;
  m ← deref (matchingCmd g);
  fs ← call (Cmd_Flags (command m) (NewFlagSet (name cont)));
  printDefaults fs;;
  if (0 <? length (requiredFlags cont))%nat then
    eprintf "\nrequired flags:\n" [];;
    eprintf "  %s\n\n" [strings_Join (requiredFlags cont) ", "]
  else ret tt.

(** [Parse].  [flag.Parse()] parses [os.Args[1:]] into [flag.CommandLine];
    [flag.NArg()], [flag.Arg(0)] and [flag.Args()] read what it has left
    over. *)
Definition Parse (os : Process) (ord : MapOrder cmdCont) : M unit :=
  g ← get;
  cl ← parse_or_exit (CommandLine g) (arguments os);
  modify (set_CommandLine cl);;
  (* if there are no subcommands registered, return immediately *)
  if (size (cmds g) <? 1)%nat then ret tt
  else
    modify set_flag_Usage;;
    if (length (Args cl) <? 1)%nat then Usage os ord;; os_Exit 1
    else
      let name := default "" (Args cl !! 0%nat) in
      match cmds g !! name with
      | Some cont =>
          fs ← call (Cmd_Flags (command cont) (NewFlagSet name));
          fs ← deref (FlagSet_Bool "h" false "" fs);
          fs ← parse_or_exit fs (drop 1 (Args cl));
          modify (set_matched cont (Args fs) (FlagSet_BoolVar "h" fs));;
          (* Check for required flags. *)
          let flagMap := missingFlags (requiredFlags cont) (Visit fs) in
          if (0 <? size flagMap)%nat then subcommandUsage os cont;; os_Exit 1
          else ret tt
      | None => Usage os ord;; os_Exit 1
      end.

(** [Run]: runs the subcommand that [Parse] has matched; if there is none,
    it silently returns. *)
Definition Run (os : Process) : M (option error) :=
  g ← get;
  match matchingCmd g with
  | Some m =>
      deref (flagHelp g) ≫= λ h : bool,
      (if h then subcommandUsage os m else ret tt);;
      call (Cmd_Run (command m) (args g))
  | None => ret None
  end.

(** [ParseAndRun] *)
Definition ParseAndRun (os : Process) (ord : MapOrder cmdCont) : M (option error) :=
  Parse os ord;; Run os.

(** The package when the process starts: no command, nothing matched. *)
Definition start (cl : FlagSet) (w : W) : Globals :=
  mkGlobals cl false ∅ None [] None [] w.

(** [flagHelp] is not nil when [matchingCmd] is not. *)
Definition help_ok (g : Globals) : Prop :=
  is_Some (matchingCmd g) → is_Some (flagHelp g).

End legacy.

Arguments mkCmd {W _}.
Arguments Cmd_Flags {W _}.
Arguments Cmd_Run {W _}.
Arguments mkCmdCont {W _}.
Arguments name {W _}.
Arguments desc {W _}.
Arguments command {W _}.
Arguments requiredFlags {W _}.
Arguments mkGlobals {W _}.
Arguments CommandLine {W _}.
Arguments flag_Usage {W _}.
Arguments cmds {W _}.
Arguments matchingCmd {W _}.
Arguments args {W _}.
Arguments flagHelp {W _}.
Arguments stderr {W _}.
Arguments world {W _}.
Arguments set_CommandLine {W _}.
Arguments set_flag_Usage {W _}.
Arguments set_cmds {W _}.
Arguments set_matched {W _}.
Arguments write {W _}.
Arguments set_world {W _}.
Arguments ret {W _ A}.
Arguments bind {W _ A B}.
Arguments get {W _}.
Arguments modify {W _}.
Arguments eprintf {W _}.
Arguments printDefaults {W _}.
Arguments os_Exit {W _ A}.
Arguments panic {W _ A}.
Arguments deref {W _ A}.
Arguments call {W _ A}.
Arguments parse_or_exit {W _}.
Arguments for_each {W _ A}.
Arguments On {W _}.
Arguments subcommandUsage {W _}.
Arguments Run {W _}.
Arguments start {W _}.
Arguments help_ok {W _}.
Arguments numOfGlobalFlags {W _ _}.
Arguments Usage {W _ _}.
Arguments Parse {W _ _}.
Arguments ParseAndRun {W _ _}.
Arguments Return {W _ A} _ _.
Arguments Exit {W _ A} _ _.
Arguments FlagExit {W _ A} _.
Arguments Panic {W _ A}.

End legacy.

(** A program of the older variant: the command ["version"] of the README,
    which notes in the program's state that it ran and with what. *)
Module legacy_examples.

Definition versionCmd : legacy.Cmd string :=
  legacy.mkCmd
    (λ fs w, fs ← flag.Bool "v" false "provides verbose output" fs; Some (fs, w))
    (λ args w, Some (None, String.concat " " ("ran" :: args))).

Definition versionCont : legacy.cmdCont string :=
  legacy.mkCmdCont "version" "prints the version" versionCmd ["v"].

(** The process at its start, and after [On("version", ...)]. *)
Definition started : legacy.Globals string :=
  legacy.start (flag.NewFlagSet "prog") "".

Definition registered : legacy.Globals string :=
  legacy.set_cmds (<["version" := versionCont]> ∅) started.

Definition prog (arguments : list string) : legacy.Process :=
  legacy.mkProcess "prog" arguments.

(** [flag.CommandLine] after [flag.Parse()]. *)
Definition parsedLine (arguments : list string) : @FlagSet goflag :=
  (flag.Parse (flag.NewFlagSet "prog") arguments).1.

(** The flag set on which the command has registered its flags, the same
    with the flag [h], and the latter after the parse of [rest]. *)
Definition versionFlags : @FlagSet goflag :=
  default (flag.NewFlagSet "version")
    (fst <$> legacy.Cmd_Flags versionCmd (flag.NewFlagSet "version") "").

Definition versionFlagsH : @FlagSet goflag :=
  default versionFlags (flag.Bool "h" false "" versionFlags).

Definition versionParsed (rest : list string) : @FlagSet goflag :=
  (flag.Parse versionFlagsH rest).1.


(** A command without flags that takes its first argument, as the
    function of [TestCommandFunc] does, and panics when there is none; and
    the process after [Parse] has matched it for the arguments ["hello"]. *)
Definition helloCmd : legacy.Cmd string :=
  legacy.mkCmd (λ fs w, Some (fs, w))
               (λ args _, val ← args !! 0%nat; Some (None, val)).

Definition helloCont : legacy.cmdCont string :=
  legacy.mkCmdCont "hello" "simple testing function" helloCmd [].

Definition helloRegistered : legacy.Globals string :=
  legacy.set_cmds (<["hello" := helloCont]> ∅) started.

Definition helloMatched : legacy.Globals string :=
  legacy.mkGlobals (parsedLine ["hello"]) true (legacy.cmds helloRegistered)
    (Some helloCont) [] (Some false) [] "".

End legacy_examples.

(** More registries and results of the commands of [examples]. *)
Module more_examples.
Import examples.

(** The registry after the first registration, and after the second. *)
Definition helloPath : Path string :=
  mkPath (<["hello" := helloEntry]> ∅).

Definition helloVersionPath : Path string :=
  mkPath (<["version" := versionEntry]> (entries helloPath)).

(** What [Run("hello", "world")] leaves on [registry]. *)
Definition helloResult : RunResult string :=
  let cont := with_Flags (parsed helloEntry ["hello"; "world"]) helloEntry in
  mkRunResult (Some cont) None (mkPath (<["hello" := cont]> (entries registry)))
    "world" (Some ["world"]).

(** What [Run("ship")] leaves on [registry]. *)
Definition shipResult : RunResult string :=
  let cont := with_Flags (cc_Flags shipEntry) shipEntry in
  mkRunResult (Some cont) (Some (ErrRequiredFlags ["env"; "zone"]))
    (mkPath (<["ship" := cont]> (entries registry))) "" None.

(** What [Run("status")] leaves on [registry]. *)
Definition statusResult : RunResult string :=
  mkRunResult None (Some ErrNoSuchCmd) registry "" None.

End more_examples.

(** * Properties *)

(** ** The model of the flag package *)

Section flag_facts.
Import flag.

(** What a round of [parseOne] leaves of the arguments is a suffix of what
    was there, and a proper one when the round reports a flag seen. *)
Lemma parseOne_suffix f seen err f' :
  parseOne f = (seen, err, f') → args f' `suffix_of` args f.
Proof.
  unfold parseOne. intros Hp.
  repeat (case_match; simplify_eq/=);
    try match goal with H : args _ = _ |- _ => rewrite H end;
    solve [ done | apply suffix_nil | by apply suffix_cons_r
          | by do 2 apply suffix_cons_r ].
Qed.

Lemma parseOne_seen f err f' :
  parseOne f = (true, err, f') → length (args f') < length (args f).
Proof.
  unfold parseOne. intros Hp.
  repeat (case_match; simplify_eq/=);
    try match goal with H : args _ = _ |- _ => rewrite H end; simpl; lia.
Qed.

(** The rounds that [Parse] allows are never used up: with more rounds
    the loop ends in the same state. *)
Lemma parse_loop_rounds n m f :
  length (args f) < n → length (args f) < m → parse_loop n f = parse_loop m f.
Proof.
  revert m f. induction n as [|n IH]; intros [|m] f Hn Hm; try lia. simpl.
  destruct (parseOne f) as [[[] err] f'] eqn:Hp; [|done].
  apply parseOne_seen in Hp. apply IH; lia.
Qed.

Lemma parse_loop_suffix n f f' err :
  parse_loop n f = (f', err) → args f' `suffix_of` args f.
Proof.
  revert f. induction n as [|n IH]; intros f; simpl.
  - by intros [= <- _].
  - destruct (parseOne f) as [[[] e] f1] eqn:Hp.
    + intros H1%IH. etrans; [done|]. by eapply parseOne_suffix.
    + intros [= <- _]. by eapply parseOne_suffix.
Qed.

(** The arguments left over by [Parse] are a suffix of the arguments
    parsed: non-flag tokens come back in their original order. *)
Lemma Parse_Args_suffix f arguments f' err :
  Parse f arguments = (f', err) → Args f' `suffix_of` arguments.
Proof. unfold Parse. by intros H%parse_loop_suffix. Qed.

(** Parsing only adds to the flags that count as set. *)
Lemma parseOne_actual f seen err f' :
  parseOne f = (seen, err, f') → actual f ⊆ actual f'.
Proof.
  unfold parseOne. intros Hp.
  repeat (case_match; simplify_eq/=); set_solver.
Qed.

Lemma parse_loop_actual n f f' err :
  parse_loop n f = (f', err) → actual f ⊆ actual f'.
Proof.
  revert f. induction n as [|n IH]; intros f; simpl.
  - by intros [= <- _].
  - destruct (parseOne f) as [[[] e] f1] eqn:Hp.
    + intros H1%IH. apply parseOne_actual in Hp. set_solver.
    + intros [= <- _]. by eapply parseOne_actual.
Qed.

Lemma Parse_actual f arguments f' err :
  Parse f arguments = (f', err) → actual f ⊆ actual f'.
Proof. unfold Parse. by intros H%parse_loop_actual. Qed.

Lemma elem_of_Visit f k : k ∈ Visit f ↔ k ∈ actual f.
Proof. unfold Visit. by rewrite merge_sort_Permutation, elem_of_elements. Qed.

End flag_facts.

(** ** The map of the missing flags *)

Lemma required_lookup (requiredFlags : list string) (m : gmap string bool) k :
  foldl (λ m flagName, <[flagName := true]> m) m requiredFlags !! k =
    if decide (k ∈ requiredFlags) then Some true else m !! k.
Proof.
  revert m. induction requiredFlags as [|x l IH]; intros m; simpl.
  - done.
  - rewrite IH. destruct (decide (k ∈ x :: l)) as [Hin|Hnin].
    + apply elem_of_cons in Hin as [->|Hin].
      * destruct (decide (x ∈ l)); [done|]. apply lookup_insert_eq.
      * by rewrite decide_True.
    + apply not_elem_of_cons in Hnin as [Hne Hnin].
      rewrite decide_False by done. by apply lookup_insert_ne.
Qed.

Lemma visited_lookup (visited : list string) (m : gmap string bool) k :
  foldl (λ m name, delete name m) m visited !! k =
    if decide (k ∈ visited) then None else m !! k.
Proof.
  revert m. induction visited as [|x l IH]; intros m; simpl.
  - done.
  - rewrite IH. destruct (decide (k ∈ x :: l)) as [Hin|Hnin].
    + apply elem_of_cons in Hin as [->|Hin].
      * destruct (decide (x ∈ l)); [done|]. apply lookup_delete_eq.
      * by rewrite decide_True.
    + apply not_elem_of_cons in Hnin as [Hne Hnin].
      rewrite decide_False by done. by apply lookup_delete_ne.
Qed.

(** A name is a key of [missingFlags] exactly when it is required and was
    not visited; its value then is [true]. *)
Lemma missingFlags_lookup requiredFlags visited k :
  missingFlags requiredFlags visited !! k =
    if decide (k ∈ requiredFlags ∧ k ∉ visited) then Some true else None.
Proof.
  unfold missingFlags. rewrite visited_lookup, required_lookup, lookup_empty.
  destruct (decide (k ∈ visited)) as [Hv|Hv].
  - rewrite decide_False; [done|]. by intros [_ ?].
  - destruct (decide (k ∈ requiredFlags)) as [Hr|Hr].
    + by rewrite decide_True.
    + rewrite decide_False; [done|]. by intros [? _].
Qed.

Lemma missingFlags_is_Some requiredFlags visited k :
  is_Some (missingFlags requiredFlags visited !! k) ↔ k ∈ requiredFlags ∧ k ∉ visited.
Proof.
  rewrite missingFlags_lookup.
  destruct (decide (k ∈ requiredFlags ∧ k ∉ visited)) as [Hk|Hk].
  - by split.
  - split; [by intros ?%is_Some_None | done].
Qed.

Lemma missingFlags_size_0 requiredFlags visited :
  size (missingFlags requiredFlags visited) = 0 ↔ ∀ k, k ∈ requiredFlags → k ∈ visited.
Proof.
  rewrite map_size_empty_iff, map_empty. split.
  - intros Hm k Hk. destruct (decide (k ∈ visited)) as [|Hv]; [done|].
    specialize (Hm k). rewrite missingFlags_lookup, decide_True in Hm; done.
  - intros Hall k. rewrite missingFlags_lookup, decide_False; [done|].
    intros [Hr Hv]. by apply Hv, Hall.
Qed.

(** The slice [keys]: whatever the order of the iteration, it holds each
    key of the map once. *)
Lemma range_keys_NoDup ord (m : gmap string bool) : NoDup (range_keys ord m).
Proof. rewrite range_keys_perm. apply NoDup_fst_map_to_list. Qed.

Lemma elem_of_range_keys ord (m : gmap string bool) k :
  k ∈ range_keys ord m ↔ is_Some (m !! k).
Proof.
  rewrite range_keys_perm, list_elem_of_fmap. split.
  - intros [[k' v] [-> Hkv%elem_of_map_to_list]]. by exists v.
  - intros [v Hv]. exists (k, v). by rewrite elem_of_map_to_list.
Qed.

Lemma range_keys_order ord ord' (m : gmap string bool) :
  range_keys ord m ≡ₚ range_keys ord' m.
Proof. by rewrite !range_keys_perm. Qed.

(** ** The paths through [Path.Run] *)

Section dispatch.
Context {W : Type} `{!FlagPkg}.
Implicit Types (p : Path W) (cont : CmdCont W) (w : W) (args rest : list string).

Lemma binding_with_Flags fs cont : binding (with_Flags fs cont) = binding cont.
Proof. done. Qed.

(** A registry in which a name is bound has at least one entry. *)
Lemma entries_size_lookup p name cont :
  entries p !! name = Some cont → (size (entries p) <? 1)%nat = false.
Proof.
  intros Hl. apply Nat.ltb_ge.
  enough (size (entries p) ≠ 0) by lia.
  rewrite map_size_empty_iff. intros Hempty.
  by rewrite Hempty, lookup_empty in Hl.
Qed.

(** The matched entry: what [Path.Run] does once the flags are parsed. *)
Lemma Path_Run_matched ord p name rest w cont fs err :
  entries p !! name = Some cont →
  parse_rest cont (name :: rest) = (fs, err) →
  Path_Run ord p (name :: rest) w =
    let cont := with_Flags fs cont in
    let p := mkPath (<[name := cont]> (entries p)) in
    match err with
    | Some err => Some (mkRunResult (Some cont) (Some err) p w None)
    | None =>
        let missing := missingFlags (cc_RequiredFlags cont) (Visit fs) in
        if (0 <? size missing)%nat then
          Some (mkRunResult (Some cont)
                  (Some (ErrRequiredFlags (range_keys ord missing))) p w None)
        else
          '(e, w) ← Cmd_Run (cc_Cmd cont) (Args fs) w;
          Some (mkRunResult (Some cont) e p w (Some (Args fs)))
    end.
Proof.
  intros Hl Hparse. unfold Path_Run.
  rewrite (entries_size_lookup _ _ _ Hl). simpl.
  rewrite Hl. simpl. by rewrite Hparse.
Qed.

(** The entry that a call returns is the one bound to the first argument,
    and an error without an entry is one of the package's two. *)
Lemma Path_Run_resolves ord p args w r :
  Path_Run ord p args w = Some r →
  binding <$> res_cont r =
    (if (size (bindings p) <? 1)%nat || (length args <? 1)%nat then None
     else args !! 0%nat ≫= λ name, bindings p !! name) ∧
  (res_cont r = None →
   res_err r =
     Some (if (size (bindings p) <? 1)%nat || (length args <? 1)%nat
           then ErrCmdUsage else ErrNoSuchCmd)).
Proof.
  unfold bindings. rewrite map_size_fmap. unfold Path_Run.
  destruct ((size (entries p) <? 1)%nat || (length args <? 1)%nat) eqn:Husage.
  { by intros [= <-]. }
  destruct args as [|name rest]; [by rewrite orb_true_r in Husage|]. simpl.
  rewrite lookup_fmap.
  destruct (entries p !! name) as [cont|] eqn:Hl; simpl; [|by intros [= <-]].
  destruct (parse_rest cont (name :: rest)) as [fs [err|]].
  { by intros [= <-]. }
  destruct (0 <? size _)%nat.
  { by intros [= <-]. }
  destruct (Cmd_Run _ _ _) as [[e w']|]; simpl; [|done].
  by intros [= <-].
Qed.

Lemma Path_Run_resolves_bound ord p name rest w r cont :
  entries p !! name = Some cont →
  Path_Run ord p (name :: rest) w = Some r →
  binding <$> res_cont r = Some (binding cont).
Proof.
  intros Hl [-> _]%Path_Run_resolves. unfold bindings.
  rewrite map_size_fmap, (entries_size_lookup _ _ _ Hl). simpl.
  by rewrite lookup_fmap, Hl.
Qed.

(** Registries with the same name-to-entry mapping resolve an argument
    vector alike, whatever the state of their flag sets and of the program. *)
Lemma Path_Run_resolves_same ord ord' p p' args w w' r r' :
  bindings p' = bindings p →
  Path_Run ord p args w = Some r →
  Path_Run ord' p' args w' = Some r' →
  binding <$> res_cont r = binding <$> res_cont r' ∧
  (res_cont r = None → res_cont r' = None ∧ res_err r = res_err r').
Proof.
  intros Hb [Hc He]%Path_Run_resolves [Hc' He']%Path_Run_resolves.
  rewrite Hb in Hc', He'. split; [congruence|].
  intros Hnone.
  assert (res_cont r' = None) as Hnone'.
  { rewrite Hnone, <- Hc' in Hc. by destruct (res_cont r'). }
  split; [done|]. by rewrite He, He'.
Qed.

(** [Path.Run] changes of an entry its flag set only, and of the registry
    the matched entry only. *)
Lemma Path_Run_bindings ord p args w r :
  Path_Run ord p args w = Some r → bindings (res_path r) = bindings p.
Proof.
  unfold Path_Run.
  destruct ((size (entries p) <? 1)%nat || (length args <? 1)%nat).
  { by intros [= <-]. }
  destruct (args !! 0%nat) as [name|]; simpl; [|done].
  destruct (entries p !! name) as [cont|] eqn:Hl; [|by intros [= <-]].
  assert (bindings (mkPath (<[name := with_Flags (parse_rest cont args).1 cont]>
                              (entries p))) = bindings p) as Hb.
  { unfold bindings. simpl. rewrite fmap_insert, binding_with_Flags.
    apply insert_id. by rewrite lookup_fmap, Hl. }
  destruct (parse_rest cont args) as [fs [err|]]; simpl in Hb.
  { by intros [= <-]. }
  destruct (0 <? size _)%nat.
  { by intros [= <-]. }
  destruct (Cmd_Run _ _ _) as [[e w']|]; simpl; [|done].
  by intros [= <-].
Qed.

(** [Path.Add] binds the name to the entry it makes, whether or not the
    name was bound before; it fails only if the command's [Flags] panics. *)
Lemma Path_Add_spec name description (command : Cmd W) requiredFlags p w fs w' :
  Cmd_Flags command (NewFlagSet name) w = Some (fs, w') →
  Path_Add name description command requiredFlags p w =
    let c := mkCmdCont command name description requiredFlags fs in
    Some (c, mkPath (<[name := c]> (entries p)), w').
Proof. intros Hf. unfold Path_Add. by rewrite Hf. Qed.

Lemma Path_Add_inv name description (command : Cmd W) requiredFlags p w c p' w' :
  Path_Add name description command requiredFlags p w = Some (c, p', w') →
  ∃ fs, Cmd_Flags command (NewFlagSet name) w = Some (fs, w') ∧
        c = mkCmdCont command name description requiredFlags fs ∧
        p' = mkPath (<[name := c]> (entries p)).
Proof.
  unfold Path_Add. destruct (Cmd_Flags _ _ _) as [[fs w1]|]; simpl; [|done].
  intros [= <- <- <-]. by exists fs.
Qed.

Lemma error_equiv_refl e : error_equiv e e.
Proof. destruct e as [[]|]; simpl; done. Qed.

Lemma result_equiv_refl (r : option (RunResult W)) : result_equiv r r.
Proof. destruct r; [|done]. repeat split. apply error_equiv_refl. Qed.

(** The order of the iteration shows in the order of the names of an
    [ErrRequiredFlags] and in nothing else. *)
Lemma Path_Run_range_order ord ord' p args w :
  result_equiv (Path_Run ord p args w) (Path_Run ord' p args w).
Proof.
  unfold Path_Run.
  destruct ((size (entries p) <? 1)%nat || (length args <? 1)%nat);
    [apply result_equiv_refl|].
  destruct (args !! 0%nat) as [name|]; simpl; [|done].
  destruct (entries p !! name) as [cont|]; [|apply result_equiv_refl].
  destruct (parse_rest cont args) as [fs [err|]]; [apply result_equiv_refl|].
  destruct (0 <? size _)%nat; [|apply result_equiv_refl].
  simpl. repeat split. apply range_keys_order.
Qed.

End dispatch.

(** ** The claims about the dispatcher *)

Section claims.
Context {W : Type} `{!FlagPkg}.
Implicit Types (p : Path W) (cont : CmdCont W) (w : W) (args rest : list string).

(** C1. If the registry has no entry, or the argument vector is empty,
    [Path.Run] returns no entry and [ErrCmdUsage]; it has called the [Run]
    of no command, and registry and program state are as they were. *)
Theorem C1_usage_error ord p args w :
  size (entries p) = 0 ∨ args = [] →
  Path_Run ord p args w = Some (mkRunResult None (Some ErrCmdUsage) p w None).
Proof.
  intros [Hp | ->]; unfold Path_Run.
  - by rewrite Hp.
  - by rewrite orb_true_r.
Qed.

(** C2. In a registry with at least one entry, an argument vector whose
    first element is not a registered name makes [Path.Run] return no
    entry and [ErrNoSuchCmd], which is not the usage error. *)
Theorem C2_no_such_command ord p name rest w :
  (1 ≤ size (entries p))%nat →
  entries p !! name = None →
  Path_Run ord p (name :: rest) w =
    Some (mkRunResult None (Some ErrNoSuchCmd) p w None) ∧
  ErrNoSuchCmd ≠ ErrCmdUsage.
Proof.
  intros Hp Hl. split; [|done]. unfold Path_Run.
  replace (size (entries p) <? 1)%nat with false
    by (symmetry; apply Nat.ltb_ge; lia).
  simpl. by rewrite Hl.
Qed.

(** C4, amended.  When the flags of the matched entry parse
    without error and some required flag does not count as set,
    [Path.Run] returns, with the entry, an [ErrRequiredFlags] that lists
    every such flag once, in the order in which the iteration over the
    map of the missing flags met them; the [Run] of the command is not
    called. *)
Theorem C4_missing_required_flags ord p name rest w cont fs :
  entries p !! name = Some cont →
  parse_rest cont (name :: rest) = (fs, None) →
  (∃ k, k ∈ cc_RequiredFlags cont ∧ k ∉ Visit fs) →
  ∃ keys,
    Path_Run ord p (name :: rest) w =
      Some (mkRunResult (Some (with_Flags fs cont)) (Some (ErrRequiredFlags keys))
              (mkPath (<[name := with_Flags fs cont]> (entries p))) w None) ∧
    NoDup keys ∧
    (∀ k, k ∈ keys ↔ k ∈ cc_RequiredFlags cont ∧ k ∉ Visit fs).
Proof.
  intros Hl Hparse (k & Hk & Hv).
  exists (range_keys ord (missingFlags (cc_RequiredFlags cont) (Visit fs))).
  split; [|split].
  - rewrite (Path_Run_matched _ _ _ _ _ _ _ _ Hl Hparse). simpl.
    destruct (0 <? size _)%nat eqn:Hsize; [done|].
    apply Nat.ltb_ge in Hsize.
    assert (size (missingFlags (cc_RequiredFlags cont) (Visit fs)) = 0) as H0 by lia.
    rewrite missingFlags_size_0 in H0. by apply H0 in Hk.
  - apply range_keys_NoDup.
  - intros k'. by rewrite elem_of_range_keys, missingFlags_is_Some.
Qed.

(** When the first argument names an entry, its flags parse without
    error and every required flag counts as set, [Path.Run] calls the
    [Run] of the entry's command with the arguments that the flag set
    reports as left over, as the flag set gives them, and returns what that
    call returns, unchanged, with the entry.  What the flag set reports as
    left over is for [Path_Run_ran_suffix] and [Path_Run_ran_name_only]. *)
Lemma Path_Run_runs ord p name rest w cont fs e w' :
  entries p !! name = Some cont →
  parse_rest cont (name :: rest) = (fs, None) →
  (∀ k, k ∈ cc_RequiredFlags cont → k ∈ Visit fs) →
  Cmd_Run (cc_Cmd cont) (Args fs) w = Some (e, w') →
  Path_Run ord p (name :: rest) w =
    Some (mkRunResult (Some (with_Flags fs cont)) e
            (mkPath (<[name := with_Flags fs cont]> (entries p))) w'
            (Some (Args fs))).
Proof.
  intros Hl Hparse Hreq Hrun.
  rewrite (Path_Run_matched _ _ _ _ _ _ _ _ Hl Hparse). simpl.
  apply missingFlags_size_0 in Hreq. rewrite Hreq. simpl.
  by rewrite Hrun.
Qed.

(** C6, amended.  For one registry, one program state and one argument
    vector, the result of [Path.Run] is fixed but for the order of the
    names in an [ErrRequiredFlags]; and a call of [Path.Run] before it,
    whatever its arguments, changes neither the entry that the argument
    vector resolves to nor, when it resolves to none, the error. *)
Theorem C6_dispatch_determined ord ord' ord0 p args args0 w w' w0 r0 :
  Path_Run ord0 p args0 w0 = Some r0 →
  result_equiv (Path_Run ord p args w) (Path_Run ord' p args w) ∧
  ∀ r r',
    Path_Run ord p args w = Some r →
    Path_Run ord' (res_path r0) args w' = Some r' →
    binding <$> res_cont r = binding <$> res_cont r' ∧
    (res_cont r = None → res_cont r' = None ∧ res_err r = res_err r').
Proof.
  intros Hb%Path_Run_bindings. split; [apply Path_Run_range_order|].
  intros r r' Hr Hr'. by eapply Path_Run_resolves_same.
Qed.

(** C7. When the flag set reports an error for the flags of the matched
    entry, [Path.Run] returns that error with the entry; the required
    flags play no part, and the [Run] of the command is not called. *)
Theorem C7_parse_error ord p name rest w cont fs err :
  entries p !! name = Some cont →
  parse_rest cont (name :: rest) = (fs, Some err) →
  Path_Run ord p (name :: rest) w =
    Some (mkRunResult (Some (with_Flags fs cont)) (Some err)
            (mkPath (<[name := with_Flags fs cont]> (entries p))) w None).
Proof.
  intros Hl Hparse.
  by rewrite (Path_Run_matched _ _ _ _ _ _ _ _ Hl Hparse).
Qed.

(** C8. Registering a name that is registered already succeeds as any
    registration does and replaces the entry: the registry has the entry
    of the second registration under the name and no more entries than
    before it; and every call of [Path.Run] with the name returns, with
    the entry of the second registration, unless the command of the second
    registration is called and panics. *)
Theorem C8_last_registration_wins name d1 (c1 : Cmd W) r1 d2 (c2 : Cmd W) r2
    p w e1 p1 w1 fs2 w2 :
  Path_Add name d1 c1 r1 p w = Some (e1, p1, w1) →
  Cmd_Flags c2 (NewFlagSet name) w1 = Some (fs2, w2) →
  ∃ p2,
    Path_Add name d2 c2 r2 p1 w1 = Some (mkCmdCont c2 name d2 r2 fs2, p2, w2) ∧
    entries p2 = <[name := mkCmdCont c2 name d2 r2 fs2]> (entries p) ∧
    entries p2 !! name = Some (mkCmdCont c2 name d2 r2 fs2) ∧
    size (entries p2) = size (entries p1) ∧
    ∀ ord rest w',
      (∃ r, Path_Run ord p2 (name :: rest) w' = Some r ∧
            binding <$> res_cont r = Some (name, d2, r2, c2)) ∨
      (Path_Run ord p2 (name :: rest) w' = None ∧
       ∃ fs, parse_rest (mkCmdCont c2 name d2 r2 fs2) (name :: rest) = (fs, None) ∧
             Cmd_Run c2 (Args fs) w' = None).
Proof.
  intros (fs1 & _ & -> & ->)%Path_Add_inv Hf2.
  eexists. split; [by apply Path_Add_spec|]. simpl.
  split; [by rewrite insert_insert_eq|].
  split; [by rewrite lookup_insert_eq|].
  split.
  { apply map_size_insert_Some. rewrite lookup_insert_eq. by eexists. }
  intros ord rest w'.
  set (e2 := mkCmdCont c2 name d2 r2 fs2).
  set (p2 := mkPath (<[name := e2]> (<[name := _]> (entries p)))).
  assert (entries p2 !! name = Some e2) as Hl by (simpl; apply lookup_insert_eq).
  destruct (Path_Run ord p2 (name :: rest) w') as [r|] eqn:Hrun.
  { left. exists r. split; [done|].
    apply (Path_Run_resolves_bound _ _ _ _ _ _ e2 Hl Hrun). }
  right. split; [done|].
  destruct (parse_rest e2 (name :: rest)) as [fs err] eqn:Hparse.
  rewrite (Path_Run_matched _ _ _ _ _ _ _ _ Hl Hparse) in Hrun. simpl in Hrun.
  destruct err as [err|]; [done|].
  destruct (0 <? size _)%nat; [done|].
  exists fs. split; [done|].
  by destruct (Cmd_Run c2 (Args fs) w') as [[e w'']|].
Qed.

(** C9. The [Flags] of a [CmdFunc] leaves the flag set it is given as it
    is, so that the entry registered for it has the flag set just made;
    its [Run] hands all its arguments to the function and returns what the
    function returns. *)
Theorem C9_CmdFunc (s : CmdFunc W) fs args w name description requiredFlags p :
  CmdFunc_Flags s fs w = Some (fs, w) ∧
  CmdFunc_Run s args w = s args w ∧
  Cmd_Run (CmdFunc_Cmd s) args w = s args w ∧
  Path_Add name description (CmdFunc_Cmd s) requiredFlags p w =
    Some (mkCmdCont (CmdFunc_Cmd s) name description requiredFlags (NewFlagSet name),
          mkPath (<[name := mkCmdCont (CmdFunc_Cmd s) name description requiredFlags
                               (NewFlagSet name)]> (entries p)),
          w).
Proof. done. Qed.

(** C10. [Path.Run] adds, removes and replaces no entry: the names of the
    registry, and for each name the description, the required flags and
    the command bound to it, are after the call what they were before. *)
Theorem C10_registry_kept ord p args w r :
  Path_Run ord p args w = Some r →
  bindings (res_path r) = bindings p ∧
  dom (entries (res_path r)) = dom (entries p).
Proof.
  intros Hb%Path_Run_bindings. split; [done|].
  apply (f_equal dom) in Hb. unfold bindings in Hb.
  by rewrite !dom_fmap_L in Hb.
Qed.

End claims.

(** ** The dispatcher on Go's flag sets *)

Section dispatch_goflag.
Context {W : Type}.
Implicit Types (p : Path W) (cont : CmdCont W) (w : W) (args : list string).

(** The arguments handed to the command are, when [Path.Run] has parsed,
    a suffix of [args[1:]]. *)
Lemma parse_rest_Args_suffix cont args fs err :
  (1 < length args)%nat →
  parse_rest cont args = (fs, err) → Args fs `suffix_of` drop 1 args.
Proof.
  intros Hlen. unfold parse_rest.
  replace (1 <? length args)%nat with true by (symmetry; by apply Nat.ltb_lt).
  apply Parse_Args_suffix.
Qed.

Lemma parse_rest_actual cont args fs err :
  parse_rest cont args = (fs, err) → flag.actual (cc_Flags cont) ⊆ flag.actual fs.
Proof.
  unfold parse_rest. destruct (1 <? length args)%nat.
  - apply Parse_actual.
  - by intros [= <- _].
Qed.

(** The flag set of an entry is never reset: a flag that counts as set on it
    counts as set on it after every further call of [Path.Run], whatever
    the arguments of that call. *)
Lemma Path_Run_flag_stays_set ord p args w r n cont k :
  Path_Run ord p args w = Some r →
  entries p !! n = Some cont →
  k ∈ Visit (cc_Flags cont) →
  ∃ cont', entries (res_path r) !! n = Some cont' ∧ k ∈ Visit (cc_Flags cont').
Proof.
  intros Hrun Hn Hk.
  assert (∀ name c fs err,
            entries p !! name = Some c → parse_rest c args = (fs, err) →
            ∃ cont', <[name := with_Flags fs c]> (entries p) !! n = Some cont' ∧
                     k ∈ Visit (cc_Flags cont')) as Hstep.
  { intros name c fs err Hl Hparse. destruct (decide (name = n)) as [->|Hne].
    - rewrite lookup_insert_eq. eexists. split; [done|]. simpl.
      rewrite Hl in Hn. injection Hn as ->.
      apply parse_rest_actual in Hparse.
      apply elem_of_Visit. apply elem_of_Visit in Hk. by apply Hparse.
    - rewrite lookup_insert_ne by done. by exists cont. }
  revert Hrun. unfold Path_Run.
  destruct ((size (entries p) <? 1)%nat || (length args <? 1)%nat).
  { intros [= <-]. by exists cont. }
  destruct (args !! 0%nat) as [name|]; simpl; [|done].
  destruct (entries p !! name) as [c|] eqn:Hl; [|intros [= <-]; by exists cont].
  destruct (parse_rest c args) as [fs err] eqn:Hparse.
  specialize (Hstep name c fs err Hl Hparse).
  destruct err as [err|].
  { by intros [= <-]. }
  destruct (0 <? size _)%nat.
  { by intros [= <-]. }
  destruct (Cmd_Run _ _ _) as [[e w']|]; simpl; [|done].
  by intros [= <-].
Qed.

(** The arguments of the command's call: with something to parse they are
    a suffix of [args[1:]], in the order of the command line; with the name
    alone they are what the flag set of the entry had left over before the
    call. *)
Lemma Path_Run_ran_suffix ord p args w r a :
  (1 < length args)%nat →
  Path_Run ord p args w = Some r →
  res_ran r = Some a →
  a `suffix_of` drop 1 args.
Proof.
  intros Hlen. unfold Path_Run.
  destruct ((size (entries p) <? 1)%nat || (length args <? 1)%nat).
  { by intros [= <-]. }
  destruct (args !! 0%nat) as [name|]; simpl; [|done].
  destruct (entries p !! name) as [c|]; [|by intros [= <-]].
  destruct (parse_rest c args) as [fs err] eqn:Hparse.
  apply parse_rest_Args_suffix in Hparse; [|done].
  destruct err as [err|].
  { by intros [= <-]. }
  destruct (0 <? size _)%nat.
  { by intros [= <-]. }
  destruct (Cmd_Run _ _ _) as [[e w']|]; simpl; [|done].
  by intros [= <-] [= <-].
Qed.

Lemma Path_Run_ran_name_only ord p name w r a cont :
  entries p !! name = Some cont →
  Path_Run ord p [name] w = Some r →
  res_ran r = Some a →
  a = Args (cc_Flags cont).
Proof.
  intros Hl.
  rewrite (Path_Run_matched _ _ _ _ _ _ (cc_Flags cont) None Hl) by done. simpl.
  destruct (0 <? size _)%nat.
  { by intros [= <-]. }
  destruct (Cmd_Run _ _ _) as [[e w']|]; simpl; [|done].
  by intros [= <-] [= <-].
Qed.

(** An entry registered for a [CmdFunc] has a flag set without flags. *)
Lemma CmdFunc_no_flags (s : CmdFunc W) name description requiredFlags p w c p' w' :
  Path_Add name description (CmdFunc_Cmd s) requiredFlags p w = Some (c, p', w') →
  flag.formal (cc_Flags c) = ∅ ∧ flag.actual (cc_Flags c) = ∅.
Proof. by intros [= <- _ _]. Qed.

End dispatch_goflag.

(** ** The claims on the commands of the documentation and of the test *)

Module scenarios.
Import examples.

(** [registry] is what the three calls of [Add] build. *)
Lemma registration_registry : registration = Some (registry, "").
Proof. reflexivity. Qed.

(** [TestCommandFunc]: after [Add("hello", ...)], [Run("hello", "world")]
    returns no error and has set [val] to ["world"]. *)
Lemma TestCommandFunc :
  ('(_, globalPath, val) ← Add "hello" "simple testing function"
                              (CmdFunc_Cmd helloFunc) [] NewPath "";
   r ← Run range_forward globalPath ["hello"; "world"] val;
   Some (res_err r, res_world r)) = Some (None, "world").
Proof. reflexivity. Qed.

(** C1 on the new registry. *)
Lemma C1_usage_error_witness :
  Path_Run range_forward (NewPath (W := string)) ["hello"; "world"] "" =
    Some (mkRunResult None (Some ErrCmdUsage) NewPath "" None).
Proof.
  apply (C1_usage_error range_forward NewPath ["hello"; "world"] "").
  left. reflexivity.
Defined.

(** C2 on the registry of the examples, for the name ["status"]. *)
Lemma C2_no_such_command_witness :
  Path_Run range_forward registry ["status"; "-v"] "" =
    Some (mkRunResult None (Some ErrNoSuchCmd) registry "" None) ∧
  ErrNoSuchCmd ≠ ErrCmdUsage.
Proof.
  apply (C2_no_such_command range_forward registry "status" ["-v"] "").
  - vm_compute. lia.
  - reflexivity.
Defined.

(** C3, and where the code departs from it.  For the entry ["version"],
    whose required flag is [v]: dispatched by its name alone when newly
    registered, the error names [v]; given [-v=false], the default value of
    [v], the flag counts as set and the command runs; dispatched by its name
    alone after that call, [v] counts as set still, though this command
    line does not mention it, and the command runs
    (see [Path_Run_flag_stays_set]). *)
Theorem C3_required_flag_of_an_earlier_call :
  res_err <$> Path_Run range_forward registry ["version"] "" =
    Some (Some (ErrRequiredFlags ["v"])) ∧
  (λ r, (res_err r, res_ran r)) <$>
      Path_Run range_forward registry ["version"; "-v=false"] "" =
    Some (None, Some []) ∧
  (λ r, (res_err r, res_ran r)) <$>
      Path_Run range_forward (after ["version"; "-v=false"] registry) ["version"] "" =
    Some (None, Some []).
Proof. repeat split; reflexivity. Qed.

(** C4 as stated fails: the names in the error are not sorted.  With the
    iteration over the map of the missing flags in one of its orders,
    ["ship"] alone gives the error that lists [zone] before [env]. *)
Lemma C4_counterexample :
  entries registry !! "ship" = Some shipEntry ∧
  parse_rest shipEntry ["ship"] = (cc_Flags shipEntry, None) ∧
  res_err <$> Path_Run range_backward registry ["ship"] "" =
    Some (Some (ErrRequiredFlags ["zone"; "env"])) ∧
  ¬ Sorted String.le ["zone"; "env"].
Proof.
  repeat split; try reflexivity.
  intros Hs. inversion Hs as [|? ? _ Hhd]. inversion Hhd as [|? ? Hle]. done.
Qed.

(** C4, amended, for ["ship"] given [env] and not [zone]. *)
Lemma C4_missing_required_flags_witness :
  ∃ keys,
    Path_Run range_forward registry ["ship"; "-env=prod"; "now"] "" =
      Some (mkRunResult
              (Some (with_Flags (parsed shipEntry ["ship"; "-env=prod"; "now"]) shipEntry))
              (Some (ErrRequiredFlags keys))
              (mkPath (<["ship" := with_Flags (parsed shipEntry ["ship"; "-env=prod"; "now"])
                                     shipEntry]> (entries registry)))
              "" None) ∧
    NoDup keys ∧
    (∀ k, k ∈ keys ↔
          k ∈ cc_RequiredFlags shipEntry ∧
          k ∉ Visit (parsed shipEntry ["ship"; "-env=prod"; "now"])).
Proof.
  apply (C4_missing_required_flags range_forward registry "ship"
           ["-env=prod"; "now"] "" shipEntry
           (parsed shipEntry ["ship"; "-env=prod"; "now"])).
  - reflexivity.
  - reflexivity.
  - exists "zone". split; apply (bool_decide_unpack _); vm_compute; exact I.
Defined.

(** [Path_Run_runs] for the command of [TestCommandFunc]. *)
Lemma Path_Run_runs_hello :
  Path_Run range_forward registry ["hello"; "world"] "" =
    Some (mkRunResult (Some (with_Flags (parsed helloEntry ["hello"; "world"]) helloEntry))
            None
            (mkPath (<["hello" := with_Flags (parsed helloEntry ["hello"; "world"]) helloEntry]>
                       (entries registry)))
            "world" (Some ["world"])).
Proof.
  apply (Path_Run_runs range_forward registry "hello" ["world"] "" helloEntry
           (parsed helloEntry ["hello"; "world"]) None "world").
  - reflexivity.
  - reflexivity.
  - intros k Hk. by apply elem_of_nil in Hk.
  - reflexivity.
Defined.

(** C5, and where the code departs from it.  For the entry ["hello"] of
    [TestCommandFunc], whose function stores its first argument:
    [Run("hello", "world")] calls the function with ["world"], the argument
    this call has left over, and returns its nil; [Run("hello")] after it
    has no argument left over, and calls the function with ["world"]
    again, the argument left over by the earlier call, which the function
    stores; on the newly registered entry [Run("hello")] calls the function
    with no argument, and the function panics at [args[0]]
    (see [Path_Run_ran_name_only] and [Path_Run_ran_suffix]). *)
Theorem C5_leftover_arguments_of_an_earlier_call :
  (λ r, (res_err r, res_ran r, res_world r)) <$>
      Path_Run range_forward registry ["hello"; "world"] "" =
    Some (None, Some ["world"], "world") ∧
  (λ r, (res_err r, res_ran r, res_world r)) <$>
      Path_Run range_forward (after ["hello"; "world"] registry) ["hello"] "" =
    Some (None, Some ["world"], "world") ∧
  Path_Run range_forward registry ["hello"] "" = None.
Proof. repeat split; reflexivity. Qed.

(** C6 as stated fails: two calls on one registry, with one argument
    vector and one program state, that return different errors, the order
    of the iteration over the map of the missing flags not being the same
    in the two. *)
Lemma C6_counterexample :
  res_err <$> Path_Run range_forward registry ["ship"] "" =
    Some (Some (ErrRequiredFlags ["env"; "zone"])) ∧
  res_err <$> Path_Run range_backward registry ["ship"] "" =
    Some (Some (ErrRequiredFlags ["zone"; "env"])) ∧
  outcome <$> Path_Run range_forward registry ["ship"] "" ≠
    outcome <$> Path_Run range_backward registry ["ship"] "".
Proof.
  assert (res_err <$> Path_Run range_forward registry ["ship"] "" =
            Some (Some (ErrRequiredFlags ["env"; "zone"]))) as Hf by reflexivity.
  assert (res_err <$> Path_Run range_backward registry ["ship"] "" =
            Some (Some (ErrRequiredFlags ["zone"; "env"]))) as Hb by reflexivity.
  split; [exact Hf|]. split; [exact Hb|].
  intros Heq. apply (f_equal (fmap snd)) in Heq.
  rewrite <- !option_fmap_compose in Heq.
  change (snd ∘ outcome) with (@res_err string goflag) in Heq.
  rewrite Hf, Hb in Heq. discriminate Heq.
Qed.

(** C6, amended, with [Run("version", "-v", "now")] as the earlier call. *)
Lemma C6_dispatch_determined_witness :
  result_equiv (Path_Run range_forward registry ["version"] "")
               (Path_Run range_backward registry ["version"] "") ∧
  ∀ r r',
    Path_Run range_forward registry ["version"] "" = Some r →
    Path_Run range_backward (res_path versionResult) ["version"] "later" = Some r' →
    binding <$> res_cont r = binding <$> res_cont r' ∧
    (res_cont r = None → res_cont r' = None ∧ res_err r = res_err r').
Proof.
  apply (C6_dispatch_determined range_forward range_backward range_forward registry
           ["version"] ["version"; "-v"; "now"] "" "later" "" versionResult).
  reflexivity.
Defined.

(** C7 for ["ship"] given a flag it does not have, its required flag
    [zone] missing as well. *)
Lemma C7_parse_error_witness :
  Path_Run range_forward registry ["ship"; "-env=prod"; "-q"] "" =
    Some (mkRunResult
            (Some (with_Flags (parsed shipEntry ["ship"; "-env=prod"; "-q"]) shipEntry))
            (Some (ErrFlag (FlagNotDefined "q")))
            (mkPath (<["ship" := with_Flags (parsed shipEntry ["ship"; "-env=prod"; "-q"])
                                   shipEntry]> (entries registry)))
            "" None).
Proof.
  apply (C7_parse_error range_forward registry "ship" ["-env=prod"; "-q"] "" shipEntry).
  - reflexivity.
  - reflexivity.
Defined.

(** C8 for ["hello"], registered for the function of the test and then for
    [VersionCommand]: the second [Add] returns the entry of
    [VersionCommand], the registry has that one entry, and
    [Run("hello", "-v", "now")] returns, with the entry of
    [VersionCommand] and no error. *)
Lemma C8_last_registration_wins_witness :
  ∃ p2 r,
    Path_Add "hello" "prints the version" VersionCommand ["v"]
      (mkPath (<["hello" := helloEntry]> ∅)) "" =
      Some (mkCmdCont VersionCommand "hello" "prints the version" ["v"]
              (flags_of "hello" VersionCommand), p2, "") ∧
    entries p2 !! "hello" =
      Some (mkCmdCont VersionCommand "hello" "prints the version" ["v"]
              (flags_of "hello" VersionCommand)) ∧
    size (entries p2) = 1 ∧
    Path_Run range_forward p2 ["hello"; "-v"; "now"] "" = Some r ∧
    binding <$> res_cont r = Some ("hello", "prints the version", ["v"], VersionCommand) ∧
    res_err r = None.
Proof.
  destruct (C8_last_registration_wins "hello" "simple testing function"
              (CmdFunc_Cmd helloFunc) [] "prints the version" VersionCommand ["v"]
              NewPath "" helloEntry (mkPath (<["hello" := helloEntry]> ∅)) ""
              (flags_of "hello" VersionCommand) "" eq_refl eq_refl)
    as (p2 & Hadd & _ & Hl & Hsize & Hrun).
  assert (p2 = helloAgain) as -> by (by injection Hadd).
  destruct (Hrun range_forward ["-v"; "now"] "") as [(r & Hr & Hb)|[Hnone _]].
  - exists helloAgain, r.
    split; [exact Hadd|]. split; [exact Hl|]. split; [reflexivity|].
    split; [exact Hr|]. split; [exact Hb|].
    assert (res_err <$> Path_Run range_forward helloAgain ["hello"; "-v"; "now"] "" =
              Some None) as He by reflexivity.
    rewrite Hr in He. injection He as He. exact He.
  - assert (is_Some (Path_Run range_forward helloAgain ["hello"; "-v"; "now"] ""))
      as [r Hr] by (eexists; reflexivity).
    rewrite Hnone in Hr. discriminate Hr.
Defined.

(** C10 for [Run("version", "-v", "now")], which changes the flag set of
    ["version"]. *)
Lemma C10_registry_kept_witness :
  bindings (res_path versionResult) = bindings registry ∧
  dom (entries (res_path versionResult)) = dom (entries registry).
Proof.
  apply (C10_registry_kept range_forward registry ["version"; "-v"; "now"] ""
           versionResult).
  reflexivity.
Defined.

End scenarios.

(** * More of the package *)

(** ** [Path.Add] and [Path.Run] together *)

Section registry.
Context {W : Type} `{!FlagPkg}.
Implicit Types (p : Path W) (cont c : CmdCont W) (w : W) (args rest : list string).

(** Every call of [Path.Run] goes one of the six ways. *)
Lemma Path_Run_spec ord p args w : Run_spec ord p args w (Path_Run ord p args w).
Proof.
  destruct (decide (size (entries p) = 0)) as [Hsize|Hsize].
  { unfold Path_Run. rewrite Hsize. simpl. apply Run_usage. by left. }
  destruct args as [|name rest].
  { unfold Path_Run. rewrite orb_true_r. apply Run_usage. by right. }
  destruct (entries p !! name) as [cont|] eqn:Hl.
  - destruct (parse_rest cont (name :: rest)) as [fs err] eqn:Hparse.
    rewrite (Path_Run_matched _ _ _ _ _ _ _ _ Hl Hparse). simpl.
    destruct err as [err|]; [by eapply Run_parse_error|].
    destruct (0 <? size _)%nat eqn:Hmiss.
    + eapply Run_missing; [done..|].
      apply Nat.ltb_lt in Hmiss.
      destruct (map_choose (missingFlags (cc_RequiredFlags cont) (Visit fs)))
        as (k & v & Hk).
      { intros Hempty. rewrite Hempty, map_size_empty in Hmiss. lia. }
      exists k. apply missingFlags_is_Some. by exists v.
    + apply Nat.ltb_ge in Hmiss.
      assert (size (missingFlags (cc_RequiredFlags cont) (Visit fs)) = 0) as H0 by lia.
      rewrite missingFlags_size_0 in H0.
      destruct (Cmd_Run (cc_Cmd cont) (Args fs) w) as [[e w']|] eqn:Hrun; simpl.
      * by eapply Run_ran.
      * by eapply Run_panic.
  - unfold Path_Run.
    replace (size (entries p) <? 1)%nat with false
      by (symmetry; apply Nat.ltb_ge; lia).
    simpl. rewrite Hl. by eapply Run_unknown.
Qed.

(** X1. [Path.Add] binds the name to the entry it returns, which carries
    the four arguments of the call; the entries of all other names are as
    they were, and the registry has one entry more exactly when the name
    was not bound before. *)
Theorem Path_Add_binds name description (command : Cmd W) requiredFlags p w c p' w' :
  Path_Add name description command requiredFlags p w = Some (c, p', w') →
  entries p' !! name = Some c ∧
  binding c = (name, description, requiredFlags, command) ∧
  (∀ n, n ≠ name → entries p' !! n = entries p !! n) ∧
  size (entries p') =
    match entries p !! name with
    | Some _ => size (entries p)
    | None => S (size (entries p))
    end.
Proof.
  intros (fs & _ & -> & ->)%Path_Add_inv. simpl.
  split; [apply lookup_insert_eq|]. split; [done|]. split.
  - intros n Hn. by apply lookup_insert_ne.
  - rewrite map_size_insert. by destruct (entries p !! name).
Qed.

(** X2. The registration of a name leaves the dispatch of every other
    registered name as it was: started in one program state, [Path.Run] on
    the registry after the [Add] returns the same entry and the same error,
    calls the command with the same arguments and leaves the same program
    state as on the registry before the [Add], and the registries after the
    two calls differ by the new binding only.  (The program state in which
    the call starts is the same on both sides; what the [Flags] of the
    registered command does to the program state is not part of this.) *)
Theorem Path_Run_after_Add ord name description (command : Cmd W) requiredFlags
    p w0 c p' w0' n rest w :
  Path_Add name description command requiredFlags p w0 = Some (c, p', w0') →
  n ≠ name →
  is_Some (entries p !! n) →
  Path_Run ord p' (n :: rest) w =
    (λ r, mkRunResult (res_cont r) (res_err r)
            (mkPath (<[name := c]> (entries (res_path r)))) (res_world r) (res_ran r))
      <$> Path_Run ord p (n :: rest) w.
Proof.
  intros (fs0 & _ & -> & ->)%Path_Add_inv Hn [cont Hl].
  set (c := mkCmdCont command name description requiredFlags fs0).
  assert (entries (mkPath (<[name := c]> (entries p))) !! n = Some cont) as Hl'.
  { simpl. by rewrite lookup_insert_ne. }
  destruct (parse_rest cont (n :: rest)) as [fs err] eqn:Hparse.
  rewrite (Path_Run_matched _ _ _ _ _ _ _ _ Hl Hparse).
  rewrite (Path_Run_matched _ _ _ _ _ _ _ _ Hl' Hparse). simpl.
  assert (<[n := with_Flags fs cont]> (<[name := c]> (entries p)) =
          <[name := c]> (<[n := with_Flags fs cont]> (entries p))) as ->
    by by apply insert_insert_ne.
  destruct err as [err|]; [done|].
  destruct (0 <? size _)%nat; [done|].
  by destruct (Cmd_Run _ _ _) as [[e w']|].
Qed.

(** X3. In every registry built from [NewPath] by [Path.Add] and
    [Path.Run], each entry carries as its [Name] the name under which it
    is registered. *)
Theorem built_names_ok p : built p → names_ok p.
Proof.
  induction 1 as [|name description command requiredFlags p w c p' w' _ IH Hadd
                  |ord p args w r _ IH Hrun].
  - intros name c Hl. unfold NewPath in Hl. simpl in Hl.
    by rewrite lookup_empty in Hl.
  - apply Path_Add_inv in Hadd as (fs & _ & -> & ->).
    intros n c' Hl. simpl in Hl.
    destruct (decide (name = n)) as [->|Hne].
    + rewrite lookup_insert_eq in Hl. by injection Hl as <-.
    + rewrite lookup_insert_ne in Hl by done. by apply IH.
  - assert (∀ name cont fs, entries p !! name = Some cont →
              names_ok (mkPath (<[name := with_Flags fs cont]> (entries p)))) as Hstep.
    { intros name cont fs Hl n c' Hl'. simpl in Hl'.
      destruct (decide (name = n)) as [->|Hne].
      - rewrite lookup_insert_eq in Hl'. injection Hl' as <-. simpl. by apply IH.
      - rewrite lookup_insert_ne in Hl' by done. by apply IH. }
    pose proof (Path_Run_spec ord p args w) as Hspec. rewrite Hrun in Hspec.
    inversion Hspec; subst; simpl; eauto.
Qed.

(** X4. [Path.Run] calls a command only when the first argument names its
    entry, the flags have parsed without error and every required flag of
    the entry counts as set on its flag set; the arguments of the call are
    the ones the flag set has left over, and error and program state
    after [Path.Run] are those of the call. *)
Theorem Path_Run_ran ord p args w r a :
  Path_Run ord p args w = Some r →
  res_ran r = Some a →
  ∃ name cont c,
    args !! 0%nat = Some name ∧
    entries p !! name = Some cont ∧
    parse_rest cont args = (cc_Flags c, None) ∧
    res_cont r = Some c ∧
    binding c = binding cont ∧
    (∀ k, k ∈ cc_RequiredFlags c → k ∈ Visit (cc_Flags c)) ∧
    a = Args (cc_Flags c) ∧
    Cmd_Run (cc_Cmd c) a w = Some (res_err r, res_world r).
Proof.
  intros Hrun Hran.
  pose proof (Path_Run_spec ord p args w) as Hspec. rewrite Hrun in Hspec.
  inversion Hspec as [| | | |name rest cont fs e w' -> Hl Hparse Hreq Hcmd Hr|];
    subst; simpl in Hran; try discriminate.
  injection Hran as <-.
  exists name, cont, (with_Flags fs cont). by repeat split.
Qed.

(** X5. [Path.Run] returns no entry exactly when the registry is empty, the
    argument vector is empty or its first element is not registered; it
    then returns an error, one of the two of the package, has called no
    command, and leaves registry and program state as they were. *)
Theorem Path_Run_no_entry ord p args w r :
  Path_Run ord p args w = Some r →
  (res_cont r = None ↔
     size (entries p) = 0 ∨ args = [] ∨
     ∃ name, args !! 0%nat = Some name ∧ entries p !! name = None) ∧
  (res_cont r = None →
     (res_err r = Some ErrCmdUsage ∨ res_err r = Some ErrNoSuchCmd) ∧
     res_path r = p ∧ res_world r = w ∧ res_ran r = None).
Proof.
  intros Hrun.
  pose proof (Path_Run_spec ord p args w) as Hspec. rewrite Hrun in Hspec.
  assert (∀ name rest cont, args = name :: rest → entries p !! name = Some cont →
            ¬ (size (entries p) = 0 ∨ args = [] ∨
               ∃ n, args !! 0%nat = Some n ∧ entries p !! n = None))
    as Hbound.
  { intros name rest cont -> Hl [Hsize|[?|(n & [= <-] & Hn)]]; [|done|congruence].
    apply map_size_empty_iff in Hsize. by rewrite Hsize, lookup_empty in Hl. }
  inversion Hspec as [Hu|name rest Hargs Hsize Hl|name rest cont fs err Hargs Hl _
                      |name rest cont fs Hargs Hl _ _|name rest cont fs e w' Hargs Hl _ _ _
                      |]; subst r; simpl.
  - split; [|by auto]. split; [|done]. intros _. destruct Hu; auto.
  - split; [|by auto]. split; [|done]. intros _. right. right. exists name.
    by rewrite Hargs.
  - split; [|done]. split; [done|]. intros Hc. by destruct (Hbound _ _ _ Hargs Hl).
  - split; [|done]. split; [done|]. intros Hc. by destruct (Hbound _ _ _ Hargs Hl).
  - split; [|done]. split; [done|]. intros Hc. by destruct (Hbound _ _ _ Hargs Hl).
Qed.

(** X6. Given the name of a command and nothing else, [Path.Run] does not
    parse: it leaves the whole registry, flag sets included, as it was, and
    returns the entry registered under the name. *)
Theorem Path_Run_name_only ord p name w r :
  Path_Run ord p [name] w = Some r →
  res_path r = p ∧
  (size (entries p) ≠ 0 → res_cont r = entries p !! name).
Proof.
  intros Hrun.
  assert (∀ cont, entries p !! name = Some cont →
            mkPath (<[name := with_Flags (cc_Flags cont) cont]> (entries p)) = p ∧
            with_Flags (cc_Flags cont) cont = cont) as Hsame.
  { intros [? ? ? ? ?] Hl. split; [|done]. destruct p as [m]. simpl in *.
    f_equal. by apply insert_id. }
  pose proof (Path_Run_spec ord p [name] w) as Hspec. rewrite Hrun in Hspec.
  inversion Hspec as [Hu|n rest [= <- <-] Hsize Hl
                      |n rest cont fs err [= <- <-] Hl Hparse
                      |n rest cont fs [= <- <-] Hl Hparse _
                      |n rest cont fs e w' [= <- <-] Hl Hparse _ _|]; subst; simpl.
  - split; [done|]. by destruct Hu.
  - by rewrite Hl.
  - by injection Hparse.
  - injection Hparse as <-. destruct (Hsame _ Hl) as [-> ->]. by rewrite Hl.
  - injection Hparse as <-. destruct (Hsame _ Hl) as [-> ->]. by rewrite Hl.
Qed.

(** X7. [Path.Run] writes to the registry nothing but the entry it returns,
    under the first argument: every other name has its entry, flag set
    included, as before; and the program state changes only if a command
    was called. *)
Theorem Path_Run_registry ord p args w r :
  Path_Run ord p args w = Some r →
  (∀ c, res_cont r = Some c →
        ∃ name, args !! 0%nat = Some name ∧
                entries (res_path r) = <[name := c]> (entries p)) ∧
  (∀ n, args !! 0%nat ≠ Some n → entries (res_path r) !! n = entries p !! n) ∧
  (res_ran r = None → res_world r = w).
Proof.
  intros Hrun.
  pose proof (Path_Run_spec ord p args w) as Hspec. rewrite Hrun in Hspec.
  inversion Hspec as [|name rest ->|name rest cont fs err ->|name rest cont fs ->
                      |name rest cont fs e w' ->|]; subst; simpl;
    (split; [|split]); try done;
    try (intros c [= <-]; by exists name);
    try (intros n Hn; apply lookup_insert_ne; congruence).
Qed.

(** X8. [Path.Run] panics only if the command panics: there is no result
    exactly when the command of the matched entry, called after its flags
    have parsed and its required flags were found set, has none. *)
Theorem Path_Run_panic ord p args w :
  Path_Run ord p args w = None ↔
  ∃ name cont fs,
    args !! 0%nat = Some name ∧
    entries p !! name = Some cont ∧
    parse_rest cont args = (fs, None) ∧
    (∀ k, k ∈ cc_RequiredFlags cont → k ∈ Visit fs) ∧
    Cmd_Run (cc_Cmd cont) (Args fs) w = None.
Proof.
  split.
  - intros Hrun.
    pose proof (Path_Run_spec ord p args w) as Hspec. rewrite Hrun in Hspec.
    inversion Hspec as [| | | | |name rest cont fs -> Hl Hparse Hreq Hcmd].
    by exists name, cont, fs.
  - intros (name & cont & fs & Hname & Hl & Hparse & Hreq & Hcmd).
    destruct args as [|name' rest]; [done|]. injection Hname as ->.
    rewrite (Path_Run_matched _ _ _ _ _ _ _ _ Hl Hparse). simpl.
    apply missingFlags_size_0 in Hreq. rewrite Hreq. simpl. by rewrite Hcmd.
Qed.

(** X9. [Path.PrintAvailableCommands] prints the heading and then one line
    for each entry of the registry; in a registry built by [Path.Add] and
    [Path.Run] a name and a description make a line exactly when the name
    is registered with the description. *)
Theorem Path_PrintAvailableCommands_lines ord p :
  built p →
  ∃ lines,
    Path_PrintAvailableCommands ord p = Println "Available commands:" :: lines ∧
    length lines = size (entries p) ∧
    ∀ name description,
      Printf "\t%s\t%s\n" [name; description] ∈ lines ↔
      ∃ c, entries p !! name = Some c ∧ cc_Desc c = description.
Proof.
  intros Hnames%built_names_ok. eexists. split; [done|]. split.
  - by rewrite length_fmap, range_map_perm, length_map_to_list.
  - intros name description. rewrite list_elem_of_fmap. split.
    + intros ([n c] & [= -> ->] & Hin). simpl in *.
      rewrite range_map_perm in Hin. apply elem_of_map_to_list in Hin.
      exists c. split; [|done]. by rewrite (Hnames _ _ Hin).
    + intros (c & Hl & <-). exists (name, c). simpl. split.
      * by rewrite (Hnames _ _ Hl).
      * rewrite range_map_perm. by apply elem_of_map_to_list.
Qed.

End registry.

(** ** The properties on the commands of the examples *)

Module more_scenarios.
Import examples more_examples.

(** The registry of the examples is built by three calls of [Add]. *)
Lemma registry_built : built registry.
Proof.
  apply (built_Add string "ship" "ships" shipCommand ["env"; "zone"]
           helloVersionPath "" shipEntry registry ""); [|reflexivity].
  apply (built_Add string "version" "prints the version" VersionCommand ["v"]
           helloPath "" versionEntry helloVersionPath ""); [|reflexivity].
  apply (built_Add string "hello" "simple testing function" (CmdFunc_Cmd helloFunc) []
           NewPath "" helloEntry helloPath ""); [|reflexivity].
  apply built_NewPath.
Qed.

(** X1 for the registration of ["version"] after ["hello"]. *)
Lemma Path_Add_binds_witness :
  entries helloVersionPath !! "version" = Some versionEntry ∧
  binding versionEntry = ("version", "prints the version", ["v"], VersionCommand) ∧
  (∀ n, n ≠ "version" → entries helloVersionPath !! n = entries helloPath !! n) ∧
  size (entries helloVersionPath) =
    match entries helloPath !! "version" with
    | Some _ => size (entries helloPath)
    | None => S (size (entries helloPath))
    end.
Proof.
  apply (Path_Add_binds "version" "prints the version" VersionCommand ["v"]
           helloPath "" versionEntry helloVersionPath "").
  reflexivity.
Defined.

(** X2 for [Run("hello", "world")] and the registration of ["version"]. *)
Lemma Path_Run_after_Add_witness :
  Path_Run range_forward helloVersionPath ["hello"; "world"] "" =
    (λ r, mkRunResult (res_cont r) (res_err r)
            (mkPath (<["version" := versionEntry]> (entries (res_path r))))
            (res_world r) (res_ran r))
      <$> Path_Run range_forward helloPath ["hello"; "world"] "".
Proof.
  apply (Path_Run_after_Add range_forward "version" "prints the version" VersionCommand
           ["v"] helloPath "" versionEntry helloVersionPath "" "hello" ["world"] "").
  - reflexivity.
  - discriminate.
  - exists helloEntry. reflexivity.
Defined.

(** X3 for the registry of the examples. *)
Lemma built_names_ok_witness : names_ok registry.
Proof. apply (built_names_ok registry). exact registry_built. Defined.

(** X4 for [Run("hello", "world")]. *)
Lemma Path_Run_ran_witness :
  ∃ name cont c,
    ["hello"; "world"] !! 0%nat = Some name ∧
    entries registry !! name = Some cont ∧
    parse_rest cont ["hello"; "world"] = (cc_Flags c, None) ∧
    res_cont helloResult = Some c ∧
    binding c = binding cont ∧
    (∀ k, k ∈ cc_RequiredFlags c → k ∈ Visit (cc_Flags c)) ∧
    ["world"] = Args (cc_Flags c) ∧
    Cmd_Run (cc_Cmd c) ["world"] "" = Some (res_err helloResult, res_world helloResult).
Proof.
  apply (Path_Run_ran range_forward registry ["hello"; "world"] "" helloResult ["world"]).
  - reflexivity.
  - reflexivity.
Defined.

(** X5 for [Run("status")]. *)
Lemma Path_Run_no_entry_witness :
  (res_cont statusResult = None ↔
     size (entries registry) = 0 ∨ ["status"] = [] ∨
     ∃ name, ["status"] !! 0%nat = Some name ∧ entries registry !! name = None) ∧
  (res_cont statusResult = None →
     (res_err statusResult = Some ErrCmdUsage ∨ res_err statusResult = Some ErrNoSuchCmd) ∧
     res_path statusResult = registry ∧ res_world statusResult = "" ∧
     res_ran statusResult = None).
Proof.
  apply (Path_Run_no_entry range_forward registry ["status"] "" statusResult).
  reflexivity.
Defined.

(** X6 for [Run("ship")]. *)
Lemma Path_Run_name_only_witness :
  res_path shipResult = registry ∧
  (size (entries registry) ≠ 0 → res_cont shipResult = entries registry !! "ship").
Proof.
  apply (Path_Run_name_only range_forward registry "ship" "" shipResult).
  reflexivity.
Defined.

(** X7 for [Run("version", "-v", "now")]. *)
Lemma Path_Run_registry_witness :
  (∀ c, res_cont versionResult = Some c →
        ∃ name, ["version"; "-v"; "now"] !! 0%nat = Some name ∧
                entries (res_path versionResult) = <[name := c]> (entries registry)) ∧
  (∀ n, ["version"; "-v"; "now"] !! 0%nat ≠ Some n →
        entries (res_path versionResult) !! n = entries registry !! n) ∧
  (res_ran versionResult = None → res_world versionResult = "").
Proof.
  apply (Path_Run_registry range_forward registry ["version"; "-v"; "now"] ""
           versionResult).
  reflexivity.
Defined.

(** X9 for the registry of the examples. *)
Lemma Path_PrintAvailableCommands_lines_witness :
  ∃ lines,
    Path_PrintAvailableCommands map_forward registry =
      Println "Available commands:" :: lines ∧
    length lines = size (entries registry) ∧
    ∀ name description,
      Printf "\t%s\t%s\n" [name; description] ∈ lines ↔
      ∃ c, entries registry !! name = Some c ∧ cc_Desc c = description.
Proof.
  apply (Path_PrintAvailableCommands_lines map_forward registry).
  exact registry_built.
Defined.

End more_scenarios.

(** ** The older variant *)

Section legacy_facts.
Context {W : Type} `{FlagPkgGlobal}.
Implicit Types (g : legacy.Globals W) (os : legacy.Process).
Implicit Types (ord : MapOrder (legacy.cmdCont W)) (cont : legacy.cmdCont W).

Local Ltac steps :=
  unfold mbind, mret, legacy.M_bind, legacy.M_ret, legacy.bind, legacy.get,
    legacy.eprintf, legacy.printDefaults, legacy.modify, legacy.os_Exit,
    legacy.deref, legacy.ret, legacy.panic; simpl.

Lemma write_write (o1 o2 : list legacy.output) g :
  legacy.write o2 (legacy.write o1 g) = legacy.write (o1 ++ o2) g.
Proof. unfold legacy.write. simpl. by rewrite app_assoc. Qed.

(** A loop that only prints. *)
Lemma for_each_eprintf {A : Type} (l : list A) format (a : A → list string) g :
  legacy.for_each l (λ x, legacy.eprintf format (a x)) g =
    legacy.Return tt (legacy.write ((λ x, legacy.Fprintf format (a x)) <$> l) g).
Proof.
  revert g. induction l as [|x l IH]; intros g; simpl.
  - unfold legacy.ret, legacy.write. simpl. rewrite app_nil_r. by destruct g.
  - steps. rewrite IH. by rewrite write_write.
Qed.

Lemma numOfGlobalFlags_length g :
  legacy.numOfGlobalFlags g = length (VisitAll (legacy.CommandLine g)).
Proof.
  unfold legacy.numOfGlobalFlags.
  generalize (VisitAll (legacy.CommandLine g)). intros l.
  enough (∀ n, foldl (λ count _, S count) n l = (n + length l)%nat) as -> by done.
  induction l as [|x l IH]; intros n; simpl; [lia|]. rewrite IH. lia.
Qed.

(** X10. With no command registered and none matched, [ParseAndRun] does
    nothing but parse the flags of the program: if they parse, it returns
    nil, having written nothing and called no command, and the only change
    is that [flag.CommandLine] is parsed; if they do not, the process ends
    in [flag.Parse] on the error of the parse. *)
Theorem ParseAndRun_no_commands os ord g :
  size (legacy.cmds g) = 0 →
  legacy.matchingCmd g = None →
  legacy.ParseAndRun os ord g =
    match Parse (legacy.CommandLine g) (legacy.arguments os) with
    | (cl, None) => legacy.Return None (legacy.set_CommandLine cl g)
    | (_, Some err) => legacy.FlagExit err
    end.
Proof.
  intros Hsize Hm.
  unfold legacy.ParseAndRun, legacy.Parse, legacy.Run, legacy.parse_or_exit. steps.
  destruct (Parse (legacy.CommandLine g) (legacy.arguments os)) as [cl [err|]];
    [done|].
  rewrite Hsize. simpl. by rewrite Hm.
Qed.

(** What [Usage] writes when there are commands. *)
Lemma Usage_commands os ord g :
  size (legacy.cmds g) ≠ 0 →
  legacy.Usage os ord g =
    legacy.Return tt
      (legacy.write
         ([legacy.Fprintf "Usage: %s <command>\n\n" [legacy.program os];
           legacy.Fprintf "where <command> is one of:\n" []] ++
          ((λ nc : string * legacy.cmdCont W,
              legacy.Fprintf "  %-15s %s\n" [nc.1; legacy.desc nc.2])
             <$> range_map ord (legacy.cmds g)) ++
          (if (0 <? legacy.numOfGlobalFlags g)%nat
           then [legacy.Fprintf "\navailable flags:\n" [];
                 legacy.PrintDefaults (legacy.CommandLine g)]
           else []) ++
          [legacy.Fprintf "\n%s <command> -h for subcommand help\n" [legacy.program os]])
         g).
Proof.
  intros Hsize. unfold legacy.Usage.
  unfold mbind, legacy.M_bind, legacy.bind, legacy.get. simpl.
  replace (size (legacy.cmds g) =? 0)%nat with false
    by (symmetry; by apply Nat.eqb_neq).
  rewrite for_each_eprintf.
  destruct (0 <? legacy.numOfGlobalFlags g)%nat; steps;
    unfold legacy.write; simpl; do 2 f_equal;
    by rewrite <- ?app_assoc.
Qed.

(** X11. [Usage] only writes: it returns, ends no process and changes
    nothing else.  With no command registered it writes the heading and
    the defaults of the program's flags; otherwise it begins with the usage
    line, ends with the hint for subcommand help, writes a line for a name
    and a description exactly when the name is registered with the
    description, and writes the defaults of the program's flags exactly
    when the program has flags. *)
Theorem Usage_lists os ord g :
  ∃ out,
    legacy.Usage os ord g = legacy.Return tt (legacy.write out g) ∧
    (size (legacy.cmds g) = 0 →
       out = [legacy.Fprintf "Usage of %s:\n" [legacy.program os];
              legacy.PrintDefaults (legacy.CommandLine g)]) ∧
    (size (legacy.cmds g) ≠ 0 →
       head out = Some (legacy.Fprintf "Usage: %s <command>\n\n" [legacy.program os]) ∧
       last out =
         Some (legacy.Fprintf "\n%s <command> -h for subcommand help\n"
                 [legacy.program os]) ∧
       (∀ n d, legacy.Fprintf "  %-15s %s\n" [n; d] ∈ out ↔
               ∃ c, legacy.cmds g !! n = Some c ∧ legacy.desc c = d) ∧
       (legacy.PrintDefaults (legacy.CommandLine g) ∈ out ↔
        VisitAll (legacy.CommandLine g) ≠ [])).
Proof.
  destruct (decide (size (legacy.cmds g) = 0)) as [Hsize|Hsize].
  - eexists. split; [|split; [done|done]].
    unfold legacy.Usage. steps. rewrite Hsize. simpl.
    unfold legacy.write. simpl. by rewrite <- app_assoc.
  - eexists. split; [by apply Usage_commands|]. split; [done|]. intros _.
    split; [done|]. split; [by rewrite !app_assoc, last_snoc|]. split.
    + intros n d. rewrite !elem_of_app, list_elem_of_fmap. split.
      * intros [Hin|[Hin|[Hin|Hin]]].
        -- apply elem_of_cons in Hin as [|Hin]; [done|].
           by apply list_elem_of_singleton in Hin.
        -- destruct Hin as ([n' c] & [= -> ->] & Hin). simpl.
           rewrite range_map_perm in Hin. apply elem_of_map_to_list in Hin. by exists c.
        -- destruct (0 <? legacy.numOfGlobalFlags g)%nat; [|by apply elem_of_nil in Hin].
           apply elem_of_cons in Hin as [|Hin]; [done|].
           by apply list_elem_of_singleton in Hin.
        -- by apply list_elem_of_singleton in Hin.
      * intros (c & Hl & <-). right. left. exists (n, c). split; [done|].
        rewrite range_map_perm. by apply elem_of_map_to_list.
    + rewrite !elem_of_app, list_elem_of_fmap, numOfGlobalFlags_length. split.
      * intros [Hin|[Hin|[Hin|Hin]]].
        -- apply elem_of_cons in Hin as [|Hin]; [done|].
           by apply list_elem_of_singleton in Hin.
        -- by destruct Hin as (? & ? & ?).
        -- destruct (VisitAll (legacy.CommandLine g)); [|done].
           by apply elem_of_nil in Hin.
        -- by apply list_elem_of_singleton in Hin.
      * intros Hflags. right. right. left.
        destruct (VisitAll (legacy.CommandLine g)); [done|]. simpl.
        apply elem_of_cons. right. by apply list_elem_of_singleton.
Qed.

(** X12. With commands registered, when the arguments of the program name
    no command, none at all or one that is not registered, [Parse] writes
    what [Usage] writes and ends the process with status 1; it matches no
    command and calls none. *)
Theorem Parse_no_match_exits os ord g cl :
  size (legacy.cmds g) ≠ 0 →
  Parse (legacy.CommandLine g) (legacy.arguments os) = (cl, None) →
  (Args cl = [] ∨ ∃ n, Args cl !! 0%nat = Some n ∧ legacy.cmds g !! n = None) →
  ∃ out,
    legacy.Usage os ord (legacy.set_flag_Usage (legacy.set_CommandLine cl g)) =
      legacy.Return tt
        (legacy.write out (legacy.set_flag_Usage (legacy.set_CommandLine cl g))) ∧
    legacy.Parse os ord g =
      legacy.Exit 1
        (legacy.write out (legacy.set_flag_Usage (legacy.set_CommandLine cl g))).
Proof.
  intros Hsize Hparse Hnone.
  set (g1 := legacy.set_flag_Usage (legacy.set_CommandLine cl g)).
  assert (size (legacy.cmds g1) ≠ 0) as Hsize1 by done.
  eexists. split; [by apply Usage_commands|].
  unfold legacy.Parse, legacy.parse_or_exit. steps. rewrite Hparse. simpl.
  replace (size (legacy.cmds g) <? 1)%nat with false
    by (symmetry; apply Nat.ltb_ge; lia).
  fold g1. destruct Hnone as [Hargs|(n & Hn & Hl)].
  - rewrite Hargs. simpl. by rewrite (Usage_commands os ord g1 Hsize1).
  - destruct (Args cl) as [|n' rest]; [done|]. injection Hn as ->. simpl.
    rewrite Hl. by rewrite (Usage_commands os ord g1 Hsize1).
Qed.

(** [subcommandUsage] for the matching command. *)
Lemma subcommandUsage_matched os cont g m fs3 w2 :
  legacy.matchingCmd g = Some m →
  legacy.Cmd_Flags (legacy.command m) (NewFlagSet (legacy.name cont)) (legacy.world g) =
    Some (fs3, w2) →
  legacy.subcommandUsage os cont g =
    legacy.Return tt
      (legacy.set_world w2
         (legacy.write
            ([legacy.Fprintf "Usage of %s %s:\n" [legacy.program os; legacy.name cont];
              legacy.PrintDefaults fs3] ++
             (if (0 <? length (legacy.requiredFlags cont))%nat
              then [legacy.Fprintf "\nrequired flags:\n" [];
                    legacy.Fprintf "  %s\n\n"
                      [strings_Join (legacy.requiredFlags cont) ", "]]
              else []))
            g)).
Proof.
  intros Hm Hflags. unfold legacy.subcommandUsage, legacy.call. steps.
  rewrite Hm. simpl. rewrite Hflags.
  destruct (0 <? length (legacy.requiredFlags cont))%nat; simpl;
    unfold legacy.set_world, legacy.write; simpl; do 2 f_equal;
    by rewrite <- ?app_assoc, ?app_nil_r.
Qed.

Lemma subcommandUsage_panics os cont g m :
  legacy.matchingCmd g = Some m →
  legacy.Cmd_Flags (legacy.command m) (NewFlagSet (legacy.name cont)) (legacy.world g) =
    None →
  legacy.subcommandUsage os cont g = legacy.Panic.
Proof.
  intros Hm Hflags. unfold legacy.subcommandUsage, legacy.call. steps.
  rewrite Hm. simpl. by rewrite Hflags.
Qed.

(** [Parse] up to the check of the required flags, for a command that the
    arguments name and whose flags parse. *)
Lemma Parse_matched os ord g cl n rest cont fs0 w1 fs1 fs2 :
  Parse (legacy.CommandLine g) (legacy.arguments os) = (cl, None) →
  Args cl = n :: rest →
  legacy.cmds g !! n = Some cont →
  legacy.Cmd_Flags (legacy.command cont) (NewFlagSet n) (legacy.world g) = Some (fs0, w1) →
  FlagSet_Bool "h" false "" fs0 = Some fs1 →
  Parse fs1 rest = (fs2, None) →
  legacy.Parse os ord g =
    (if (0 <? size (missingFlags (legacy.requiredFlags cont) (Visit fs2)))%nat
     then legacy.bind (legacy.subcommandUsage os cont) (λ _, legacy.os_Exit 1)
     else legacy.ret tt)
      (legacy.mkGlobals cl true (legacy.cmds g) (Some cont) (Args fs2)
         (Some (FlagSet_BoolVar "h" fs2)) (legacy.stderr g) w1).
Proof.
  intros Hparse Hargs Hl Hflags Hbool Hsub.
  assert ((size (legacy.cmds g) <? 1)%nat = false) as Hsize.
  { apply Nat.ltb_ge. enough (size (legacy.cmds g) ≠ 0) by lia.
    rewrite map_size_empty_iff. intros He. by rewrite He, lookup_empty in Hl. }
  unfold legacy.Parse, legacy.parse_or_exit, legacy.call.
  unfold mbind, legacy.M_bind, legacy.get, legacy.modify.
  unfold legacy.bind at 1 2 3 4. simpl. rewrite Hparse. simpl.
  rewrite Hsize, Hargs. simpl. rewrite Hl.
  unfold legacy.bind at 1 2 3 4, legacy.deref. simpl.
  rewrite Hflags, Hbool. simpl. rewrite drop_0, Hsub. simpl.
  by destruct (0 <? size _)%nat.
Qed.

(** X13. When the arguments name a registered command and its flags parse,
    but a required flag is not among the flags set on this command line,
    [Parse] records the match, writes the usage of the subcommand, for
    which the command registers its flags on a new flag set once more,
    with all the required flags of the command in one line, joined by
    commas, and ends the process with status 1. *)
Theorem Parse_missing_required os ord g cl n rest cont fs0 w1 fs1 fs2 fs3 w2 :
  Parse (legacy.CommandLine g) (legacy.arguments os) = (cl, None) →
  Args cl = n :: rest →
  legacy.cmds g !! n = Some cont →
  legacy.Cmd_Flags (legacy.command cont) (NewFlagSet n) (legacy.world g) = Some (fs0, w1) →
  FlagSet_Bool "h" false "" fs0 = Some fs1 →
  Parse fs1 rest = (fs2, None) →
  (∃ k, k ∈ legacy.requiredFlags cont ∧ k ∉ Visit fs2) →
  legacy.Cmd_Flags (legacy.command cont) (NewFlagSet (legacy.name cont)) w1 = Some (fs3, w2) →
  legacy.Parse os ord g =
    legacy.Exit 1
      (legacy.mkGlobals cl true (legacy.cmds g) (Some cont) (Args fs2)
         (Some (FlagSet_BoolVar "h" fs2))
         (legacy.stderr g ++
          [legacy.Fprintf "Usage of %s %s:\n" [legacy.program os; legacy.name cont];
           legacy.PrintDefaults fs3;
           legacy.Fprintf "\nrequired flags:\n" [];
           legacy.Fprintf "  %s\n\n" [strings_Join (legacy.requiredFlags cont) ", "]])
         w2).
Proof.
  intros Hparse Hargs Hl Hflags Hbool Hsub (k & Hk & Hv) Hflags'.
  assert ((0 <? size (missingFlags (legacy.requiredFlags cont) (Visit fs2)))%nat = true)
    as Hmiss.
  { apply Nat.ltb_lt.
    enough (size (missingFlags (legacy.requiredFlags cont) (Visit fs2)) ≠ 0) by lia.
    rewrite missingFlags_size_0. intros Hall. by apply Hv, Hall. }
  assert ((0 <? length (legacy.requiredFlags cont))%nat = true) as Hreq.
  { apply Nat.ltb_lt. destruct (legacy.requiredFlags cont); [|simpl; lia].
    by apply elem_of_nil in Hk. }
  rewrite (Parse_matched _ _ _ _ _ _ _ _ _ _ _ Hparse Hargs Hl Hflags Hbool Hsub), Hmiss.
  unfold legacy.bind.
  rewrite (subcommandUsage_matched _ _ _ cont fs3 w2) by done.
  by rewrite Hreq.
Qed.

(** X14. When the arguments name a registered command, its flags parse,
    every required flag is among the flags set on this command line and
    [-h] is not given, [ParseAndRun] calls the command with the arguments
    left over and returns what the command returns; it writes nothing. *)
Theorem ParseAndRun_runs os ord g cl n rest cont fs0 w1 fs1 fs2 e w2 :
  Parse (legacy.CommandLine g) (legacy.arguments os) = (cl, None) →
  Args cl = n :: rest →
  legacy.cmds g !! n = Some cont →
  legacy.Cmd_Flags (legacy.command cont) (NewFlagSet n) (legacy.world g) = Some (fs0, w1) →
  FlagSet_Bool "h" false "" fs0 = Some fs1 →
  Parse fs1 rest = (fs2, None) →
  (∀ k, k ∈ legacy.requiredFlags cont → k ∈ Visit fs2) →
  FlagSet_BoolVar "h" fs2 = false →
  legacy.Cmd_Run (legacy.command cont) (Args fs2) w1 = Some (e, w2) →
  legacy.ParseAndRun os ord g =
    legacy.Return e
      (legacy.mkGlobals cl true (legacy.cmds g) (Some cont) (Args fs2) (Some false)
         (legacy.stderr g) w2).
Proof.
  intros Hparse Hargs Hl Hflags Hbool Hsub Hall Hh Hrun.
  apply missingFlags_size_0 in Hall.
  unfold legacy.ParseAndRun, mbind, legacy.M_bind. unfold legacy.bind at 1.
  rewrite (Parse_matched _ _ _ _ _ _ _ _ _ _ _ Hparse Hargs Hl Hflags Hbool Hsub), Hall.
  simpl. unfold legacy.Run, legacy.call. steps. rewrite Hh. simpl. by rewrite Hrun.
Qed.

(** X15. With [-h] given besides, [ParseAndRun] writes the usage of the
    subcommand first, for which the command registers its flags on a new
    flag set once more, and then calls the command all the same, with the
    arguments left over, and returns what it returns. *)
Theorem ParseAndRun_help os ord g cl n rest cont fs0 w1 fs1 fs2 fs3 w2 e w3 :
  Parse (legacy.CommandLine g) (legacy.arguments os) = (cl, None) →
  Args cl = n :: rest →
  legacy.cmds g !! n = Some cont →
  legacy.Cmd_Flags (legacy.command cont) (NewFlagSet n) (legacy.world g) = Some (fs0, w1) →
  FlagSet_Bool "h" false "" fs0 = Some fs1 →
  Parse fs1 rest = (fs2, None) →
  (∀ k, k ∈ legacy.requiredFlags cont → k ∈ Visit fs2) →
  FlagSet_BoolVar "h" fs2 = true →
  legacy.Cmd_Flags (legacy.command cont) (NewFlagSet (legacy.name cont)) w1 = Some (fs3, w2) →
  legacy.Cmd_Run (legacy.command cont) (Args fs2) w2 = Some (e, w3) →
  legacy.ParseAndRun os ord g =
    legacy.Return e
      (legacy.mkGlobals cl true (legacy.cmds g) (Some cont) (Args fs2) (Some true)
         (legacy.stderr g ++
          [legacy.Fprintf "Usage of %s %s:\n" [legacy.program os; legacy.name cont];
           legacy.PrintDefaults fs3] ++
          (if (0 <? length (legacy.requiredFlags cont))%nat
           then [legacy.Fprintf "\nrequired flags:\n" [];
                 legacy.Fprintf "  %s\n\n"
                   [strings_Join (legacy.requiredFlags cont) ", "]]
           else []))
         w3).
Proof.
  intros Hparse Hargs Hl Hflags Hbool Hsub Hall Hh Hflags' Hrun.
  apply missingFlags_size_0 in Hall.
  unfold legacy.ParseAndRun, mbind, legacy.M_bind. unfold legacy.bind at 1.
  rewrite (Parse_matched _ _ _ _ _ _ _ _ _ _ _ Hparse Hargs Hl Hflags Hbool Hsub), Hall.
  simpl. unfold legacy.Run, mbind, legacy.M_bind, legacy.get, legacy.deref, legacy.ret.
  unfold legacy.bind at 1 2 3. simpl. rewrite Hh.
  rewrite (subcommandUsage_matched _ _ _ cont fs3 w2) by done.
  unfold legacy.call. simpl. by rewrite Hrun.
Qed.

(** What is followed by [os.Exit] does not return. *)
Lemma exit_after {A : Type} (m : legacy.M W unit) code g (a : A) g' :
  legacy.bind m (λ _, legacy.os_Exit code) g ≠ legacy.Return a g'.
Proof. unfold legacy.bind, legacy.os_Exit. by destruct (m g). Qed.

(** A [Parse] that returns with commands registered has gone all the way:
    the flags of the program have parsed, the first argument left over
    names a command, the command has registered its flags on a new flag
    set, to which [Parse] has added [h], the arguments after the name have
    parsed into that flag set and no required flag is missing on it. *)
Lemma Parse_Return_inv os ord g g' :
  legacy.Parse os ord g = legacy.Return tt g' →
  size (legacy.cmds g) ≠ 0 →
  ∃ cl n rest cont fs0 w1 fs1 fs2,
    Parse (legacy.CommandLine g) (legacy.arguments os) = (cl, None) ∧
    Args cl = n :: rest ∧
    legacy.cmds g !! n = Some cont ∧
    legacy.Cmd_Flags (legacy.command cont) (NewFlagSet n) (legacy.world g) =
      Some (fs0, w1) ∧
    FlagSet_Bool "h" false "" fs0 = Some fs1 ∧
    Parse fs1 rest = (fs2, None) ∧
    (∀ k, k ∈ legacy.requiredFlags cont → k ∈ Visit fs2) ∧
    g' = legacy.mkGlobals cl true (legacy.cmds g) (Some cont) (Args fs2)
           (Some (FlagSet_BoolVar "h" fs2)) (legacy.stderr g) w1.
Proof.
  intros Hret Hsize. revert Hret.
  unfold legacy.Parse, legacy.parse_or_exit.
  unfold mbind at 1 2 3 4, legacy.M_bind, legacy.bind at 1 2 3 4, legacy.get,
    legacy.modify. simpl.
  destruct (Parse (legacy.CommandLine g) (legacy.arguments os)) as [cl [err|]]
    eqn:Hparse; [done|].
  replace (size (legacy.cmds g) <? 1)%nat with false
    by (symmetry; apply Nat.ltb_ge; lia).
  destruct (Args cl) as [|n rest] eqn:Hargs; simpl.
  { intros Hret. unfold mbind, legacy.M_bind in Hret. by apply exit_after in Hret. }
  destruct (legacy.cmds g !! n) as [cont|] eqn:Hl.
  2:{ intros Hret. unfold mbind, legacy.M_bind in Hret. by apply exit_after in Hret. }
  unfold mbind at 1 2 3 4, legacy.bind at 1 2 3 4, legacy.call, legacy.deref,
    legacy.modify, legacy.ret, legacy.panic. simpl.
  destruct (legacy.Cmd_Flags _ _ _) as [[fs0 w1]|] eqn:Hflags; [|done].
  destruct (FlagSet_Bool "h" false "" fs0) as [fs1|] eqn:Hbool; [|done].
  rewrite drop_0. destruct (Parse fs1 rest) as [fs2 [err|]] eqn:Hsub; [done|].
  destruct (0 <? size _)%nat eqn:Hmiss.
  { intros Hret. unfold mbind, legacy.M_bind in Hret. by apply exit_after in Hret. }
  intros [= <-]. simpl. exists cl, n, rest, cont, fs0, w1, fs1, fs2.
  repeat split; try done.
  apply missingFlags_size_0. apply Nat.ltb_ge in Hmiss. lia.
Qed.


(** [Run], by what [Parse] has left. *)
Lemma Run_cases os g :
  match legacy.matchingCmd g, legacy.flagHelp g with
  | None, _ => legacy.Run os g = legacy.Return None g
  | Some m, None => legacy.Run os g = legacy.Panic
  | Some m, Some false =>
      legacy.Run os g = legacy.call (legacy.Cmd_Run (legacy.command m) (legacy.args g)) g
  | Some m, Some true =>
      legacy.Run os g =
        legacy.bind (legacy.subcommandUsage os m)
          (λ _, legacy.call (legacy.Cmd_Run (legacy.command m) (legacy.args g))) g
  end.
Proof.
  destruct (legacy.matchingCmd g) as [m|] eqn:Hm;
    [destruct (legacy.flagHelp g) as [[]|] eqn:Hh|];
    unfold legacy.Run, mbind, legacy.M_bind, legacy.get, legacy.bind, legacy.deref,
      legacy.ret, legacy.panic; simpl; rewrite Hm, ?Hh; reflexivity.
Qed.

(** X17. [flagHelp] is not nil whenever [matchingCmd] is not: this holds
    when the process starts, and [On], [Parse] and [Run], when they
    return, keep it. *)
Theorem help_ok_kept os ord g :
  legacy.help_ok g →
  (∀ cl w, legacy.help_ok (legacy.start (W := W) cl w)) ∧
  (∀ name description command requiredFlags g',
     legacy.On name description command requiredFlags g = legacy.Return tt g' →
     legacy.help_ok g') ∧
  (∀ g', legacy.Parse os ord g = legacy.Return tt g' → legacy.help_ok g') ∧
  (∀ e g', legacy.Run os g = legacy.Return e g' → legacy.help_ok g').
Proof.
  intros Hok. split; [|split; [|split]].
  - intros cl w [m Hm]. discriminate Hm.
  - intros name description command requiredFlags g' [= <-]. exact Hok.
  - intros g' Hret.
    destruct (decide (size (legacy.cmds g) = 0)) as [Hsize|Hsize].
    + revert Hret. unfold legacy.Parse, legacy.parse_or_exit. steps.
      destruct (Parse (legacy.CommandLine g) (legacy.arguments os)) as [cl [err|]];
        [done|].
      rewrite Hsize. simpl. intros [= <-]. exact Hok.
    + destruct (Parse_Return_inv os ord g g' Hret Hsize)
        as (cl & n & rest & cont & fs0 & w1 & fs1 & fs2 & _ & _ & _ & _ & _ & _ & _ & ->).
      intros _. by eexists.
  - intros e g' Hret. pose proof (Run_cases os g) as Hrun.
    enough (legacy.matchingCmd g' = legacy.matchingCmd g ∧
            legacy.flagHelp g' = legacy.flagHelp g) as [Hm Hh].
    { unfold legacy.help_ok. by rewrite Hm, Hh. }
    destruct (legacy.matchingCmd g) as [m|] eqn:Hm.
    2:{ rewrite Hrun in Hret. injection Hret as _ <-. by rewrite Hm. }
    destruct (legacy.flagHelp g) as [[]|] eqn:Hh; rewrite Hrun in Hret.
    + revert Hret. unfold legacy.bind.
      destruct (legacy.Cmd_Flags (legacy.command m) (NewFlagSet (legacy.name m))
                  (legacy.world g)) as [[fs3 w2]|] eqn:Hflags.
      * rewrite (subcommandUsage_matched _ _ _ m fs3 w2 Hm Hflags).
        unfold legacy.call. simpl.
        destruct (legacy.Cmd_Run _ _ _) as [[e' w3]|]; [|done].
        intros [= _ <-]. simpl. by rewrite Hm, Hh.
      * by rewrite (subcommandUsage_panics _ _ _ m Hm Hflags).
    + revert Hret. unfold legacy.call.
      destruct (legacy.Cmd_Run _ _ _) as [[e' w3]|]; [|done].
      intros [= _ <-]. simpl. by rewrite Hm, Hh.
    + done.
Qed.

(** X18. After a [Parse] that has returned, [Run] panics inside the code
    of the matched command and nowhere else: when [flagHelp] is not nil if
    [matchingCmd] is not, [Run] panics exactly when a command is matched
    and, without [-h], its [Run] panics on the stored arguments in the
    program state of the call, or, with [-h], its [Flags], called by
    [subcommandUsage] in the program state of the call, panics, or its
    [Run] panics on the stored arguments in the program state which that
    [Flags] has left. *)
Theorem Run_panics_in_command os g :
  legacy.help_ok g →
  legacy.Run os g = legacy.Panic ↔
  ∃ m, legacy.matchingCmd g = Some m ∧
       ((legacy.flagHelp g = Some false ∧
         legacy.Cmd_Run (legacy.command m) (legacy.args g) (legacy.world g) = None) ∨
        (legacy.flagHelp g = Some true ∧
         legacy.Cmd_Flags (legacy.command m) (NewFlagSet (legacy.name m))
           (legacy.world g) = None) ∨
        (legacy.flagHelp g = Some true ∧
         ∃ fs3 w2,
           legacy.Cmd_Flags (legacy.command m) (NewFlagSet (legacy.name m))
             (legacy.world g) = Some (fs3, w2) ∧
           legacy.Cmd_Run (legacy.command m) (legacy.args g) w2 = None)).
Proof.
  intros Hok. pose proof (Run_cases os g) as Hrun. split.
  - intros Hpanic.
    destruct (legacy.matchingCmd g) as [m|] eqn:Hm.
    2:{ by rewrite Hrun in Hpanic. }
    exists m. split; [done|].
    destruct (legacy.flagHelp g) as [[]|] eqn:Hh.
    + rewrite Hrun in Hpanic. revert Hpanic. unfold legacy.bind.
      destruct (legacy.Cmd_Flags (legacy.command m) (NewFlagSet (legacy.name m))
                  (legacy.world g)) as [[fs3 w2]|] eqn:Hflags; [|by right; left].
      rewrite (subcommandUsage_matched _ _ _ m fs3 w2 Hm Hflags).
      unfold legacy.call. simpl.
      destruct (legacy.Cmd_Run _ _ w2) as [[e' w3]|] eqn:Hcmd; [done|].
      intros _. right. right. split; [done|]. by exists fs3, w2.
    + rewrite Hrun in Hpanic. revert Hpanic. unfold legacy.call.
      destruct (legacy.Cmd_Run _ _ (legacy.world g)) as [[e' w3]|] eqn:Hcmd; [done|].
      intros _. by left.
    + destruct Hok as [? Hnone]; [by eexists|]. rewrite Hh in Hnone. discriminate Hnone.
  - intros (m & Hm & Hcase). rewrite Hm in Hrun.
    destruct Hcase as [[Hh Hcmd]|[[Hh Hflags]|(Hh & fs3 & w2 & Hflags & Hcmd)]];
      rewrite Hh in Hrun; rewrite Hrun.
    + unfold legacy.call. by rewrite Hcmd.
    + unfold legacy.bind. by rewrite (subcommandUsage_panics _ _ _ m Hm Hflags).
    + unfold legacy.bind. rewrite (subcommandUsage_matched _ _ _ m fs3 w2 Hm Hflags).
      unfold legacy.call. simpl. by rewrite Hcmd.
Qed.

End legacy_facts.

(** ** The older variant on the command of the README *)

Module legacy_scenarios.
Import legacy_examples.

(** [registered] is what [On] makes of [started]. *)
Lemma On_registered :
  legacy.On "version" "prints the version" versionCmd ["v"] started =
    legacy.Return tt registered.
Proof. reflexivity. Qed.

(** X10 for a program without commands, given arguments that parse and
    given a flag that the program does not have. *)
Lemma ParseAndRun_no_commands_witness :
  legacy.ParseAndRun (prog ["version"; "now"]) map_forward started =
    legacy.Return None (legacy.set_CommandLine (parsedLine ["version"; "now"]) started) ∧
  legacy.ParseAndRun (prog ["-x"; "version"]) map_forward started =
    legacy.FlagExit (ErrFlag (FlagNotDefined "x")).
Proof.
  split.
  - apply (ParseAndRun_no_commands (prog ["version"; "now"]) map_forward started).
    + reflexivity.
    + reflexivity.
  - apply (ParseAndRun_no_commands (prog ["-x"; "version"]) map_forward started).
    + reflexivity.
    + reflexivity.
Defined.

(** X12 for the name of a command that is not registered. *)
Lemma Parse_no_match_exits_witness :
  ∃ out,
    legacy.Usage (prog ["status"]) map_forward
        (legacy.set_flag_Usage (legacy.set_CommandLine (parsedLine ["status"]) registered)) =
      legacy.Return tt
        (legacy.write out
           (legacy.set_flag_Usage
              (legacy.set_CommandLine (parsedLine ["status"]) registered))) ∧
    legacy.Parse (prog ["status"]) map_forward registered =
      legacy.Exit 1
        (legacy.write out
           (legacy.set_flag_Usage
              (legacy.set_CommandLine (parsedLine ["status"]) registered))).
Proof.
  apply (Parse_no_match_exits (prog ["status"]) map_forward registered
           (parsedLine ["status"])).
  - vm_compute. discriminate.
  - reflexivity.
  - right. exists "status". split; reflexivity.
Defined.

(** X13 for ["version"] without its required flag. *)
Lemma Parse_missing_required_witness :
  legacy.Parse (prog ["version"; "now"]) map_forward registered =
    legacy.Exit 1
      (legacy.mkGlobals (parsedLine ["version"; "now"]) true (legacy.cmds registered)
         (Some versionCont) (Args (versionParsed ["now"]))
         (Some (FlagSet_BoolVar "h" (versionParsed ["now"])))
         (legacy.stderr registered ++
          [legacy.Fprintf "Usage of %s %s:\n"
             [legacy.program (prog ["version"; "now"]); legacy.name versionCont];
           legacy.PrintDefaults versionFlags;
           legacy.Fprintf "\nrequired flags:\n" [];
           legacy.Fprintf "  %s\n\n"
             [strings_Join (legacy.requiredFlags versionCont) ", "]])
         "").
Proof.
  apply (Parse_missing_required (prog ["version"; "now"]) map_forward registered
           (parsedLine ["version"; "now"]) "version" ["now"] versionCont
           versionFlags "" versionFlagsH (versionParsed ["now"]) versionFlags "").
  - reflexivity.
  - reflexivity.
  - reflexivity.
  - reflexivity.
  - reflexivity.
  - reflexivity.
  - exists "v". split; apply (bool_decide_unpack _); vm_compute; exact I.
  - reflexivity.
Defined.

(** X14 for ["version" "-v" "now"]. *)
Lemma ParseAndRun_runs_witness :
  legacy.ParseAndRun (prog ["version"; "-v"; "now"]) map_forward registered =
    legacy.Return None
      (legacy.mkGlobals (parsedLine ["version"; "-v"; "now"]) true
         (legacy.cmds registered) (Some versionCont)
         (Args (versionParsed ["-v"; "now"])) (Some false)
         (legacy.stderr registered) "ran now").
Proof.
  apply (ParseAndRun_runs (prog ["version"; "-v"; "now"]) map_forward registered
           (parsedLine ["version"; "-v"; "now"]) "version" ["-v"; "now"] versionCont
           versionFlags "" versionFlagsH (versionParsed ["-v"; "now"]) None "ran now").
  - reflexivity.
  - reflexivity.
  - reflexivity.
  - reflexivity.
  - reflexivity.
  - reflexivity.
  - intros k Hk. apply list_elem_of_singleton in Hk as ->.
    apply (bool_decide_unpack _). vm_compute. exact I.
  - reflexivity.
  - reflexivity.
Defined.

(** X15 for ["version" "-v" "-h" "now"]. *)
Lemma ParseAndRun_help_witness :
  legacy.ParseAndRun (prog ["version"; "-v"; "-h"; "now"]) map_forward registered =
    legacy.Return None
      (legacy.mkGlobals (parsedLine ["version"; "-v"; "-h"; "now"]) true
         (legacy.cmds registered) (Some versionCont)
         (Args (versionParsed ["-v"; "-h"; "now"])) (Some true)
         (legacy.stderr registered ++
          [legacy.Fprintf "Usage of %s %s:\n"
             [legacy.program (prog ["version"; "-v"; "-h"; "now"]);
              legacy.name versionCont];
           legacy.PrintDefaults versionFlags] ++
          (if (0 <? length (legacy.requiredFlags versionCont))%nat
           then [legacy.Fprintf "\nrequired flags:\n" [];
                 legacy.Fprintf "  %s\n\n"
                   [strings_Join (legacy.requiredFlags versionCont) ", "]]
           else []))
         "ran now").
Proof.
  apply (ParseAndRun_help (prog ["version"; "-v"; "-h"; "now"]) map_forward registered
           (parsedLine ["version"; "-v"; "-h"; "now"]) "version" ["-v"; "-h"; "now"]
           versionCont versionFlags "" versionFlagsH
           (versionParsed ["-v"; "-h"; "now"]) versionFlags "" None "ran now").
  - reflexivity.
  - reflexivity.
  - reflexivity.
  - reflexivity.
  - reflexivity.
  - reflexivity.
  - intros k Hk. apply list_elem_of_singleton in Hk as ->.
    apply (bool_decide_unpack _). vm_compute. exact I.
  - reflexivity.
  - reflexivity.
  - reflexivity.
Defined.


(** X17 for the process with ["version"] registered. *)
Lemma help_ok_kept_witness :
  (∀ cl w, legacy.help_ok (legacy.start (W := string) cl w)) ∧
  (∀ name description command requiredFlags g',
     legacy.On name description command requiredFlags registered = legacy.Return tt g' →
     legacy.help_ok g') ∧
  (∀ g', legacy.Parse (prog ["version"; "-v"]) map_forward registered =
           legacy.Return tt g' → legacy.help_ok g') ∧
  (∀ e g', legacy.Run (prog ["version"; "-v"]) registered = legacy.Return e g' →
           legacy.help_ok g').
Proof.
  apply (help_ok_kept (prog ["version"; "-v"]) map_forward registered).
  intros [m Hm]. discriminate Hm.
Defined.

(** [helloMatched] is what [Parse] leaves for the arguments ["hello"]. *)
Lemma Parse_helloMatched :
  legacy.Parse (prog ["hello"]) map_forward helloRegistered =
    legacy.Return tt helloMatched.
Proof. reflexivity. Qed.

(** X18 for the command that panics without an argument. *)
Lemma Run_panics_in_command_witness :
  legacy.Run (prog ["hello"]) helloMatched = legacy.Panic ∧
  ∃ m, legacy.matchingCmd helloMatched = Some m ∧
       ((legacy.flagHelp helloMatched = Some false ∧
         legacy.Cmd_Run (legacy.command m) (legacy.args helloMatched)
           (legacy.world helloMatched) = None) ∨
        (legacy.flagHelp helloMatched = Some true ∧
         legacy.Cmd_Flags (legacy.command m) (NewFlagSet (legacy.name m))
           (legacy.world helloMatched) = None) ∨
        (legacy.flagHelp helloMatched = Some true ∧
         ∃ fs3 w2,
           legacy.Cmd_Flags (legacy.command m) (NewFlagSet (legacy.name m))
             (legacy.world helloMatched) = Some (fs3, w2) ∧
           legacy.Cmd_Run (legacy.command m) (legacy.args helloMatched) w2 = None)).
Proof.
  assert (legacy.help_ok helloMatched) as Hok by (intros _; by eexists).
  split; [reflexivity|].
  apply (proj1 (Run_panics_in_command (prog ["hello"]) helloMatched Hok)).
  reflexivity.
Defined.

End legacy_scenarios.
